(** * AppGui core: the mutex-guarded serial channel and the crash-artifact manager

    Shallow embedding of [mutex_serial.py] and [crash_output_manager.py].

    - [MutexSerial] models the guard object ([my_lock] and the device flag
      [is_open] inherited from [serial.Serial]), its two context-manager
      methods, and the interleavings of any number of threads that use the
      guard through [with] blocks.
    - [CrashOutputManager] models the two static methods over an explicit
      world (working directory, file system, root logger, exception in
      flight). *)

From Stdlib Require Import Ascii.
From stdpp Require Import gmap strings list fin_maps.

(* ===================================================================== *)
(** ** mutex_serial.py                                                    *)
(* ===================================================================== *)

Module MutexSerial.

(** The object state the two methods touch: [is_open] is the attribute of
    [serial.Serial], [my_lock] is [self.my_lock.locked()]. *)
Record guard := Guard { is_open : bool; my_lock : bool }.

Inductive exn :=
| SerialException   (* raised by [serial.Serial.open] *)
| RuntimeError.     (* [threading.Lock.release] on an unlocked lock *)

(** *** The primitives the methods call

    [threading.Lock.acquire()] returns only once it has switched the lock
    from unlocked to locked; on a locked lock the caller waits ([None]). *)
Definition lock_acquire (g : guard) : option guard :=
  if my_lock g then None else Some (Guard (is_open g) true).

Definition lock_release (g : guard) : exn + guard :=
  if my_lock g then inr (Guard (is_open g) false) else inl RuntimeError.

(** [serial.Serial.open()] raises on a port that is open already.
    Otherwise, whether the operating system grants the port is not decided
    by the program; [granted] is that answer.  A refused open raises
    before [is_open] is set. *)
Definition dev_open (granted : bool) (g : guard) : exn + guard :=
  if is_open g then inl SerialException
  else if granted then inr (Guard true (my_lock g))
  else inl SerialException.

(** [serial.Serial.close()] leaves the port closed whatever it was. *)
Definition dev_close (g : guard) : guard := Guard false (my_lock g).

(** *** The two methods, run by one thread without interference *)

Inductive outcome :=
| Returned (g : guard)
| Raised (e : exn) (g : guard)
| Blocked (g : guard).      (* waiting in [my_lock.acquire()] *)

Definition __enter__ (granted : bool) (g : guard) : outcome :=
  match lock_acquire g with
  | None => Blocked g
  | Some g1 =>
      if negb (is_open g1) then
        match dev_open granted g1 with
        | inl e => Raised e g1
        | inr g2 => Returned g2
        end
      else Returned g1
  end.

Definition __exit__ (g : guard) : outcome :=
  let g1 := dev_close g in
  match lock_release g1 with
  | inl e => Raised e g1
  | inr g2 => Returned g2
  end.

(** *** Threads

    Where a thread stands with respect to one [with guard:] block.  The
    points are the places between two primitive calls of the methods. *)
Inductive pc :=
| Outside     (* not in a with block on the guard *)
| Entering    (* in [__enter__], [my_lock.acquire()] has returned *)
| Holding     (* [__enter__] has returned: the body of the block *)
| Exiting     (* in [__exit__], before [self.close()] *)
| Closing.    (* in [__exit__], after [self.close()], before the release *)

Global Instance pc_eq_dec : EqDecision pc.
Proof. solve_decision. Defined.

Definition in_region (p : pc) : bool :=
  match p with Outside => false | _ => true end.

Inductive action :=
| Acquire                   (* my_lock.acquire() *)
| OpenSkip                  (* is_open was already true *)
| OpenOk                    (* self.open() succeeded *)
| OpenFail                  (* self.open() raised *)
| Body (failed : bool) (left_open : bool)
                            (* the block's body ends, normally or not *)
| Close                     (* self.close() *)
| Release.                  (* my_lock.release() *)

Record sys := Sys { dev : guard; pcs : list pc }.

Definition init (n : nat) (open0 : bool) : sys :=
  Sys (Guard open0 false) (replicate n Outside).

(** One primitive step of thread [i].  A [with] statement calls [__exit__]
    when its body ends, normally or by an exception, and does not call it
    when [__enter__] itself raised. *)
Inductive step : sys → nat * action → sys → Prop :=
| step_acquire g ps i g' :
    ps !! i = Some Outside →
    lock_acquire g = Some g' →
    step (Sys g ps) (i, Acquire) (Sys g' (<[i:=Entering]> ps))
| step_open_skip g ps i :
    ps !! i = Some Entering →
    negb (is_open g) = false →
    step (Sys g ps) (i, OpenSkip) (Sys g (<[i:=Holding]> ps))
| step_open_ok g ps i g' :
    ps !! i = Some Entering →
    negb (is_open g) = true →
    dev_open true g = inr g' →
    step (Sys g ps) (i, OpenOk) (Sys g' (<[i:=Holding]> ps))
| step_open_fail g ps i e :
    ps !! i = Some Entering →
    negb (is_open g) = true →
    dev_open false g = inl e →
    step (Sys g ps) (i, OpenFail) (Sys g (<[i:=Outside]> ps))
| step_body g ps i failed b :
    ps !! i = Some Holding →
    step (Sys g ps) (i, Body failed b)
         (Sys (Guard b (my_lock g)) (<[i:=Exiting]> ps))
| step_close g ps i :
    ps !! i = Some Exiting →
    step (Sys g ps) (i, Close) (Sys (dev_close g) (<[i:=Closing]> ps))
| step_release g ps i g' :
    ps !! i = Some Closing →
    lock_release g = inr g' →
    step (Sys g ps) (i, Release) (Sys g' (<[i:=Outside]> ps)).

Inductive reachable (s0 : sys) : sys → Prop :=
| reach_init : reachable s0 s0
| reach_step s l s' : reachable s0 s → step s l s' → reachable s0 s'.

(** The same step as a function, to run schedules. *)
Definition at_pc (s : sys) (i : nat) (p : pc) : bool :=
  bool_decide (pcs s !! i = Some p).

Definition exec (l : nat * action) (s : sys) : option sys :=
  let '(i, a) := l in
  let g := dev s in
  let ps := pcs s in
  match a with
  | Acquire =>
      if at_pc s i Outside then
        match lock_acquire g with
        | Some g' => Some (Sys g' (<[i:=Entering]> ps))
        | None => None
        end
      else None
  | OpenSkip =>
      if at_pc s i Entering && negb (negb (is_open g))
      then Some (Sys g (<[i:=Holding]> ps)) else None
  | OpenOk =>
      if at_pc s i Entering && negb (is_open g) then
        match dev_open true g with
        | inr g' => Some (Sys g' (<[i:=Holding]> ps))
        | inl _ => None
        end
      else None
  | OpenFail =>
      if at_pc s i Entering && negb (is_open g) then
        match dev_open false g with
        | inl _ => Some (Sys g (<[i:=Outside]> ps))
        | inr _ => None
        end
      else None
  | Body _ b =>
      if at_pc s i Holding
      then Some (Sys (Guard b (my_lock g)) (<[i:=Exiting]> ps)) else None
  | Close =>
      if at_pc s i Exiting
      then Some (Sys (dev_close g) (<[i:=Closing]> ps)) else None
  | Release =>
      if at_pc s i Closing then
        match lock_release g with
        | inr g' => Some (Sys g' (<[i:=Outside]> ps))
        | inl _ => None
        end
      else None
  end.

Fixpoint run (sched : list (nat * action)) (s : sys) : option sys :=
  match sched with
  | [] => Some s
  | l :: sched' =>
      match exec l s with
      | Some s' => run sched' s'
      | None => None
      end
  end.

(** *** What holds of every state of the threads

    No thread inside a block; and the invariant: the lock is locked while a
    thread is in the region, one thread at most is there, the port is
    closed once [close()] has run, and with nobody in a block the port is
    closed unless the state is still the initial one. *)
Definition all_outside (s : sys) : Prop :=
  ∀ i p, pcs s !! i = Some p → in_region p = false.

Record inv (s0 s : sys) : Prop := Inv {
  inv_locked : ∀ i p,
    pcs s !! i = Some p → in_region p = true → my_lock (dev s) = true;
  inv_single : ∀ i j p q,
    pcs s !! i = Some p → pcs s !! j = Some q →
    in_region p = true → in_region q = true → i = j;
  inv_closing : ∀ i, pcs s !! i = Some Closing → is_open (dev s) = false;
  inv_idle : all_outside s → s = s0 ∨ is_open (dev s) = false
}.

(** The object as a call leaves it. *)
Definition guard_of (o : outcome) : guard :=
  match o with Returned g | Raised _ g | Blocked g => g end.

End MutexSerial.

(* ===================================================================== *)
(** ** crash_output_manager.py                                            *)
(* ===================================================================== *)

Module CrashOutputManager.

(** *** Strings as the module uses them *)

Definition nl : string := String "010"%char "".

(** [s.split(c)] for a one-character separator: the pieces between the
    occurrences of [c], in order; never an empty list. *)
Fixpoint str_split (c : ascii) (s : string) : list string :=
  match s with
  | "" => [""]
  | String a s' =>
      if decide (a = c) then "" :: str_split c s'
      else match str_split c s' with
           | piece :: rest => String a piece :: rest
           | [] => [String a ""]
           end
  end.

Fixpoint str_mem (c : ascii) (s : string) : bool :=
  match s with
  | "" => false
  | String a s' => bool_decide (a = c) || str_mem c s'
  end.

(** *** The world the two methods act on *)

Inductive node := File (content : string) | Dir.

Global Instance node_eq_dec : EqDecision node.
Proof. solve_decision. Defined.

Inductive exn :=
| FileExistsError (p : string)     (* os.mkdir: the path names something *)
| FileNotFoundError (p : string)   (* nothing at the path, or no directory
                                      to make it in *)
| IsADirectoryError (p : string)   (* the log file path names a directory *)
| ShutilError (p : string)         (* shutil.Error *)
| IndexError                       (* list index out of range *)
| InvalidPath (p : string).        (* OSError, or the ValueError of a NUL
                                      character: the platform does not take
                                      the string as a path *)

(** The library calls a method makes, in order (kept as a history only). *)
Inductive call :=
| CallMkdir (p : string)
| CallBasicConfig (filename : string)
| CallLogError (msg : string)
| CallMove (src dst : string).

Record world := World {
  cwd : string;                  (* os.getcwd() *)
  fs : gmap string node;         (* what each path names *)
  root_handlers : list string;   (* files the root logger's handlers write to *)
  exc_info : option string;      (* the rendered exception being handled, if any *)
  calls : list call
}.

Definition set_fs (f : gmap string node) (w : world) : world :=
  World (cwd w) f (root_handlers w) (exc_info w) (calls w).
Definition set_handlers (h : list string) (w : world) : world :=
  World (cwd w) (fs w) h (exc_info w) (calls w).
Definition add_call (c : call) (w : world) : world :=
  World (cwd w) (fs w) (root_handlers w) (exc_info w) (calls w ++ [c]).

(** What the module takes from [os.path] and from the platform: the three
    path functions, how a directory (with what lies below it) is relocated
    or refused, and which strings the platform takes as the path of a new
    file (by length and characters).  Nothing is assumed about them. *)
Class Platform := {
  os_path_dirname : string → string;
  os_path_basename : string → string;
  os_path_join : string → string → string;
  move_tree : string → string → gmap string node → option (gmap string node);
  path_valid : string → bool
}.

(** A new entry can be made at [p] only in a directory that is there, and
    under a name the platform takes. *)
Definition parent_is_dir `{Platform} (p : string) (f : gmap string node) : bool :=
  bool_decide (f !! os_path_dirname p = Some Dir).

Definition can_make `{Platform} (p : string) (f : gmap string node) : bool :=
  path_valid p && parent_is_dir p f.

(** What the platform raises where no entry can be made at [p]. *)
Definition refusal `{Platform} (p : string) : exn :=
  if path_valid p then FileNotFoundError p else InvalidPath p.

(** *** Calls that change the world or raise *)

Definition M (A : Type) : Type := world → (exn + A) * world.

Definition ret {A} (a : A) : M A := λ w, (inr a, w).
Definition raise {A} (e : exn) : M A := λ w, (inl e, w).
Definition bind {A B} (m : M A) (k : A → M B) : M B :=
  λ w, match m w with
       | (inl e, w') => (inl e, w')
       | (inr a, w') => k a w'
       end.

Notation "x <- m ;; k" := (bind m (λ x, k))
  (at level 100, m at next level, right associativity).
Notation "m ;; k" := (bind m (λ _, k))
  (at level 100, right associativity).

Definition when (b : bool) (m : M unit) : M unit := if b then m else ret tt.

Definition traced (c : call) : M unit := λ w, (inr tt, add_call c w).

Definition os_getcwd : M string := λ w, (inr (cwd w), w).

Definition os_path_isdir (p : string) : M bool :=
  λ w, (inr (bool_decide (fs w !! p = Some Dir)), w).

Definition os_path_exists (p : string) : M bool :=
  λ w, (inr (bool_decide (is_Some (fs w !! p))), w).

(** [os.mkdir(p)] refuses a path that already names something.  (The two
    callers pass a child of [dirname(getcwd())], so a missing parent is
    not among the cases.) *)
Definition os_mkdir (p : string) : M unit :=
  traced (CallMkdir p);;
  λ w, match fs w !! p with
       | Some _ => (inl (FileExistsError p), w)
       | None => (inr tt, set_fs (<[p:=Dir]> (fs w)) w)
       end.

(** [traceback.format_exc()]: the rendering of the exception being handled;
    with none in flight the library renders the empty [sys.exc_info()]. *)
Definition traceback_format_exc : M string :=
  λ w, (inr (match exc_info w with
             | Some text => text
             | None => "NoneType: None" +:+ nl
             end), w).

(** [logging.basicConfig(filename=p, force=True)]: every handler of the
    root logger is removed and closed, then a [FileHandler] on [p] is made,
    which opens [p] for appending at once, and is attached.  The open
    raises on a directory; it creates the file, empty, when nothing is
    there, and raises when the directory the file is to lie in is not
    there either (a base name that holds a path separator leads out of the
    folder the caller has settled) or the platform does not take the path
    (the base name is part of it).  An open that raises leaves the root
    logger without handlers.  The level of the root logger is left alone. *)
Definition logging_basicConfig `{Platform} (filename : string) : M unit :=
  traced (CallBasicConfig filename);;
  λ w, let w1 := set_handlers [] w in
       match fs w1 !! filename with
       | Some Dir => (inl (IsADirectoryError filename), w1)
       | Some (File _) => (inr tt, set_handlers [filename] w1)
       | None =>
           if can_make filename (fs w1)
           then (inr tt, set_handlers [filename]
                           (set_fs (<[filename:=File ""]> (fs w1)) w1))
           else (inl (refusal filename), w1)
       end.

(** One record as the default format ["%(levelname)s:%(name)s:%(message)s"]
    and the handler's line terminator write it. *)
Definition format_record (levelname name msg : string) : string :=
  levelname +:+ ":" +:+ name +:+ ":" +:+ msg +:+ nl.

Definition append_file (p text : string) (f : gmap string node)
  : gmap string node :=
  match f !! p with
  | Some (File c) => <[p:=File (c +:+ text)]> f
  | _ => f
  end.

(** [logging.error(msg)]: the root logger (level WARNING, which nothing in
    the program changes) hands one ERROR record to each of its handlers. *)
Definition logging_error (msg : string) : M unit :=
  traced (CallLogError msg);;
  λ w, (inr tt,
        set_fs (foldr (λ p f, append_file p (format_record "ERROR" "root" msg) f)
                      (fs w) (root_handlers w)) w).

(** [shutil.move(src, dst)].  A destination that is a directory receives
    the source under its own base name, unless that name is taken (or the
    source is that very directory, which is renamed onto itself).  A
    regular file is renamed onto the final destination, replacing a file
    already there (by [os.rename], or by copy and unlink where rename
    refuses); moving a file onto itself changes nothing.  Where nothing is
    at the final destination, and the platform does not take it as a path
    or the directory it is to lie in is not there either, rename and copy
    both raise and the source stays.  A
    missing source raises.  A directory source is relocated with what lies
    below it, or refused, as the platform decides. *)
Definition shutil_move `{Platform} (src dst : string) : M string :=
  traced (CallMove src dst);;
  dst_is_dir <- os_path_isdir dst;;
  let real_dst :=
    if dst_is_dir then os_path_join dst (os_path_basename src) else dst in
  taken <- os_path_exists real_dst;;
  if dst_is_dir && bool_decide (src = dst) then ret dst
  else if dst_is_dir && taken then raise (ShutilError real_dst)
  else λ w,
    match fs w !! src with
    | None => (inl (FileNotFoundError src), w)
    | Some (File c) =>
        if decide (src = real_dst) then (inr real_dst, w)
        else if taken
                || path_valid real_dst
                   && (dst_is_dir || parent_is_dir real_dst (fs w))
        then (inr real_dst, set_fs (<[real_dst:=File c]> (delete src (fs w))) w)
        else (inl (refusal real_dst), w)
    | Some Dir =>
        match move_tree src real_dst (fs w) with
        | None => (inl (ShutilError src), w)
        | Some f' => (inr real_dst, set_fs f' w)
        end
    end.

(** [l[0]] *)
Definition index0 {A} (l : list A) : M A :=
  match l !! 0 with
  | Some x => ret x
  | None => raise IndexError
  end.

(** *** class CrashOutputManager *)

Definition custom_message : string :=
  nl +:+
  nl +:+
  "[This is a custom logging.error message]" +:+ nl +:+
  nl +:+
  "| Here is a sentence!" +:+ nl +:+
  "| " +:+ nl +:+
  "| " +:+ nl +:+
  "| Here is another sentence!" +:+ nl +:+
  "| " +:+ nl +:+
  "|".

Definition crash_log_manager `{Platform}
    (output_file_name : string) (optional_bool : bool) : M string :=
  let output_crash_log_folder := "Crash Logs" in
  here <- os_getcwd;;
  let output_crash_log_folder_path :=
    os_path_dirname here +:+ "\" +:+ output_crash_log_folder in
  present <- os_path_isdir output_crash_log_folder_path;;
  when (negb present) (os_mkdir output_crash_log_folder_path);;
  stem <- index0 (str_split "."%char output_file_name);;
  let output_crash_log_file_name := stem +:+ "_CRASHLOG.log" in
  let output_crash_log_file_path :=
    output_crash_log_folder_path +:+ "\" +:+ output_crash_log_file_name in
  logging_basicConfig output_crash_log_file_path;;
  (if negb optional_bool
       then text <- traceback_format_exc;; logging_error text
       else logging_error custom_message);;
  ret output_crash_log_file_path.

Definition crash_data_manager `{Platform}
    (output_file_name output_file_path : string) : M string :=
  let output_crash_data_folder := "Crash Data" in
  here <- os_getcwd;;
  let output_crash_data_folder_path :=
    os_path_dirname here +:+ "\" +:+ output_crash_data_folder in
  present <- os_path_isdir output_crash_data_folder_path;;
  when (negb present) (os_mkdir output_crash_data_folder_path);;
  stem <- index0 (str_split "."%char output_file_name);;
  let output_crash_data_file_name := stem +:+ "_CRASHDUMP.txt" in
  let output_crash_data_file_path :=
    output_crash_data_folder_path +:+ "\" +:+ output_crash_data_file_name in
  shutil_move output_file_path output_crash_data_file_path;;
  ret output_crash_data_file_path.

(** *** Vocabulary of the specification

    The "base name" of the glossary: the input file name with everything
    from the first "." onward removed. *)
Fixpoint before_first (c : ascii) (s : string) : string :=
  match s with
  | "" => ""
  | String a s' => if decide (a = c) then "" else String a (before_first c s')
  end.

(** The file-system layout: parent of the working directory, fixed folder,
    base name with marker and extension; the components are joined by the
    backslash the module writes. *)
Definition crash_log_folder `{Platform} (w : world) : string :=
  os_path_dirname (cwd w) +:+ "\" +:+ "Crash Logs".
Definition crash_log_path `{Platform} (w : world) (name : string) : string :=
  crash_log_folder w +:+ "\" +:+ before_first "."%char name +:+ "_CRASHLOG.log".
Definition crash_data_folder `{Platform} (w : world) : string :=
  os_path_dirname (cwd w) +:+ "\" +:+ "Crash Data".
Definition crash_data_path `{Platform} (w : world) (name : string) : string :=
  crash_data_folder w +:+ "\" +:+ before_first "."%char name +:+ "_CRASHDUMP.txt".

(** The text of the file at [p], empty when [p] names no file. *)
Definition content_at (w : world) (p : string) : string :=
  match fs w !! p with
  | Some (File c) => c
  | _ => ""
  end.

(** The message of the one record a call writes. *)
Definition crash_message (optional_bool : bool) (w : world) : string :=
  if optional_bool then custom_message
  else match exc_info w with
       | Some text => text
       | None => "NoneType: None" +:+ nl
       end.

(** The world with another exception in flight. *)
Definition with_exc (e : option string) (w : world) : world :=
  World (cwd w) (fs w) (root_handlers w) e (calls w).

(** What a method does once its folder is there, and the world in which
    a missing folder has just been made. *)
Definition log_use `{Platform} (p : string) (optional_bool : bool) : M string :=
  logging_basicConfig p;;
  (if negb optional_bool
   then text <- traceback_format_exc;; logging_error text
   else logging_error custom_message);;
  ret p.

Definition data_use `{Platform} (src p : string) : M string :=
  shutil_move src p;; ret p.

Definition made (dir : string) (w : world) : world :=
  set_fs (<[dir:=Dir]> (fs w)) (add_call (CallMkdir dir) w).

(** The world once the folder [dir] is settled: as it is when [dir] is a
    directory, with [dir] made otherwise. *)
Definition settled (dir : string) (w : world) : world :=
  if bool_decide (fs w !! dir = Some Dir) then w else made dir w.

(** There is room for a file at [p] once the folder [dir] is settled:
    something is at [p] already, or the platform takes [p] as a path and
    the directory [p] lies in is [dir] itself or a directory that is
    there. *)
Definition has_room `{Platform} (dir p : string) (w : world) : Prop :=
  fs w !! p ≠ None
  ∨ (path_valid p = true
     ∧ (os_path_dirname p = dir ∨ fs w !! os_path_dirname p = Some Dir)).

(** ["sep".join(pieces)] and [s.count(c)], to say what [split] keeps. *)
Fixpoint str_join (sep : string) (pieces : list string) : string :=
  match pieces with
  | [] => ""
  | [p] => p
  | p :: rest => p +:+ sep +:+ str_join sep rest
  end.

Fixpoint str_count (c : ascii) (s : string) : nat :=
  match s with
  | "" => 0
  | String a s' => (if decide (a = c) then 1 else 0) + str_count c s'
  end.

(** *** A platform to run examples on

    Paths are cut at their last separator, a backslash or a slash, as on
    the platform the module writes its paths for; a directory is relocated
    as a single entry (the example worlds hold nothing below a moved one);
    a path is taken when it is shorter than 260 characters and holds no
    control character, none of the characters reserved there, and no colon
    past the drive. *)
Definition plain_char (a : ascii) : bool :=
  let n := nat_of_ascii a in
  (32 <=? n) && negb (bool_decide (n ∈ [34; 42; 60; 62; 63; 124])).

Fixpoint str_forall (f : ascii → bool) (s : string) : bool :=
  match s with
  | "" => true
  | String a s' => f a && str_forall f s'
  end.

Fixpoint cut_last (s : string) : option (string * string) :=
  match s with
  | "" => None
  | String a s' =>
      match cut_last s' with
      | Some (h, t) => Some (String a h, t)
      | None =>
          if bool_decide (a = "\"%char) || bool_decide (a = "/"%char)
          then Some ("", s') else None
      end
  end.

Definition backslash_paths : Platform := {|
  os_path_dirname p := match cut_last p with Some (h, _) => h | None => "" end;
  os_path_basename p := match cut_last p with Some (_, t) => t | None => p end;
  os_path_join a b := a +:+ "\" +:+ b;
  move_tree src dst f := Some (<[dst:=Dir]> (delete src f));
  path_valid p :=
    (String.length p <? 260) && str_forall plain_char p
    && match p with
       | String _ (String _ rest) => negb (str_mem ":"%char rest)
       | _ => true
       end
|}.

(** Example worlds: the program runs in [C:\app\bin]. *)
Definition world_of (files : gmap string node) (e : option string) : world :=
  World "C:\app\bin" files [] e [].

End CrashOutputManager.

(* ===================================================================== *)
(** ** threading_table_data_wrangler.py                                   *)
(* ===================================================================== *)

Module ThreadingTableDataWrangler.

(** A widget is what its [text()] returns.  The status messages are HTML
    with quoted attributes; [dq] is the double quote. *)
Definition dq : string := String "034"%char "".

Definition status_html (body : string) : string :=
  ("<p style=" +:+ dq +:+ "font-size:11px; color:#DADADA;" +:+ dq +:+ ">")
  +:+ body +:+ "</p>".

Definition empty_table_msg : string := status_html "Empty Threading Table!<br>".
Definition missing_data_msg : string :=
  status_html "Missing Threading Table data!<br>".
Definition too_large_msg : string :=
  status_html "Threading Table time values too large: 60 ≥ t ≥ 0<br>".

(** [float(value)] and the two comparisons of [60 >= float(value) >= 0].
    What strings convert, and to what, is the interpreter's business:
    nothing is assumed about it here. *)
Class Floats := {
  float : Type;
  float_of_str : string → option float;   (* [None]: ValueError *)
  le_60 : float → bool;                   (* 60 >= x *)
  ge_0 : float → bool                     (* x >= 0 *)
}.

Inductive exn :=
| IndexError                 (* a widget list with fewer than five entries *)
| ValueError (v : string).   (* [float(v)] refused *)

(** What a call hands back: the pair [(True, True)], the two lists, or an
    exception. *)
Inductive result :=
| TrueTrue
| Lists (threading_table_text_list threading_table_times_list : list string)
| Raised (e : exn).

(** The first loop: rows [0 .. n-1] are read, text before time; [acc] holds
    the two lists so far. *)
Fixpoint read_rows (n : nat) (i : nat) (text_widgets time_widgets : list string)
    (texts times : list string) : exn + (list string * list string) :=
  match n with
  | 0 => inr (texts, times)
  | S n' =>
      match text_widgets !! i with
      | None => inl IndexError
      | Some t =>
          match time_widgets !! i with
          | None => inl IndexError
          | Some s =>
              read_rows n' (S i) text_widgets time_widgets
                        (texts ++ [t]) (times ++ [s])
          end
      end
  end.

(** The [while] loop.  Each turn looks at the last row and, when both of
    its cells are empty, either reports the empty table (one row left) or
    pops the row.  [fuel] bounds the turns; [None] is a loop cut short. *)
Inductive trimmed :=
| TableEmpty
| Kept (texts times : list string)
| TrimIndexError.

Fixpoint trim_rows (fuel : nat) (texts times : list string) : option trimmed :=
  match fuel with
  | 0 => None
  | S fuel' =>
      match last texts with
      | None => Some TrimIndexError
      | Some t =>
          if bool_decide (t = "") then
            match last times with
            | None => Some TrimIndexError
            | Some s =>
                if bool_decide (s = "") then
                  if (length texts =? 1) && (length times =? 1)
                  then Some TableEmpty
                  else trim_rows fuel' (removelast texts) (removelast times)
                else Some (Kept texts times)
            end
          else Some (Kept texts times)
      end
  end.

(** The last loop: the first time that does not convert raises, the first
    that lies outside the range ends the call. *)
Inductive checked := InRange | OutOfRange | NotAFloat (v : string).

Fixpoint check_times `{Floats} (times : list string) : checked :=
  match times with
  | [] => InRange
  | value :: rest =>
      match float_of_str value with
      | None => NotAFloat value
      | Some x =>
          if negb (le_60 x && ge_0 x) then OutOfRange else check_times rest
      end
  end.

(** The function: its result and the messages handed to
    [update_status_callback], in order. *)
Definition threading_table_data_wrangler `{Floats}
    (threading_table_text_widgets threading_table_time_widgets : list string)
  : result * list string :=
  match read_rows 5 0 threading_table_text_widgets
                  threading_table_time_widgets [] [] with
  | inl e => (Raised e, [])
  | inr (texts0, times0) =>
      match trim_rows (S (length texts0)) texts0 times0 with
      | None => (Raised IndexError, [])
      | Some TrimIndexError => (Raised IndexError, [])
      | Some TableEmpty => (TrueTrue, [empty_table_msg])
      | Some (Kept threading_table_text_list threading_table_times_list) =>
          if bool_decide ("" ∈ threading_table_text_list)
             || bool_decide ("" ∈ threading_table_times_list)
          then (TrueTrue, [missing_data_msg])
          else
            match check_times threading_table_times_list with
            | NotAFloat v => (Raised (ValueError v), [])
            | OutOfRange => (TrueTrue, [too_large_msg])
            | InRange =>
                (Lists threading_table_text_list threading_table_times_list, [])
            end
      end
  end.

(** *** Vocabulary for the properties *)

(** Row [i] of the table as the widgets show it. *)
Definition blank_row (text_widgets time_widgets : list string) (i : nat) : Prop :=
  text_widgets !! i = Some "" ∧ time_widgets !! i = Some "".

(** A time the last loop lets pass. *)
Definition time_ok `{Floats} (v : string) : Prop :=
  ∃ x, float_of_str v = Some x ∧ le_60 x = true ∧ ge_0 x = true.

(** What the [while] loop leaves: the empty verdict when every row is
    blank, else the rows up to the last one that is not blank. *)
Definition trim_post (ts ss : list string) (r : trimmed) : Prop :=
  (r = TableEmpty ∧ ∀ i, i < length ts → blank_row ts ss i)
  ∨ (∃ k, 1 ≤ k ≤ length ts ∧ r = Kept (take k ts) (take k ss)
          ∧ ¬ blank_row ts ss (k - 1)
          ∧ ∀ i, k ≤ i < length ts → blank_row ts ss i).

(** The rest of the function once the rows are trimmed. *)
Definition finish `{Floats} (ts ss : list string) : result * list string :=
  if bool_decide ("" ∈ ts) || bool_decide ("" ∈ ss)
  then (TrueTrue, [missing_data_msg])
  else match check_times ss with
       | NotAFloat v => (Raised (ValueError v), [])
       | OutOfRange => (TrueTrue, [too_large_msg])
       | InRange => (Lists ts ss, [])
       end.

(** *** Floats to run examples on: whole numbers written in digits, which
    is what the table's validator lets through. *)
Definition digit_value (a : ascii) : option nat :=
  let n := nat_of_ascii a in
  if (48 <=? n) && (n <=? 57) then Some (n - 48) else None.

Fixpoint digits_value (acc : nat) (s : string) : option nat :=
  match s with
  | "" => Some acc
  | String a s' =>
      match digit_value a with
      | Some d => digits_value (10 * acc + d) s'
      | None => None
      end
  end.

Definition digit_floats : Floats := {|
  float := nat;
  float_of_str s := match s with "" => None | _ => digits_value 0 s end;
  le_60 x := x <=? 60;
  ge_0 x := true
|}.

End ThreadingTableDataWrangler.

(* ===================================================================== *)
(** ** Properties of the guard                                            *)
(* ===================================================================== *)

Module MutexSerialProofs.
Import MutexSerial.

(** *** Schedules are runs of the step relation *)

Lemma exec_sound l s s' : exec l s = Some s' → step s l s'.
Proof.
  destruct l as [i a], s as [g ps]. unfold exec, at_pc; simpl.
  destruct a; intros Hx;
    repeat match type of Hx with
    | context [bool_decide ?P] => destruct (bool_decide_reflect P); simpl in Hx
    | context [negb (negb ?b)] => rewrite (negb_involutive b) in Hx
    | (if ?b then _ else _) = _ => destruct b eqn:?; simpl in Hx
    | match ?x with _ => _ end = _ => destruct x eqn:?; simpl in Hx
    end; try discriminate; simplify_eq.
  - by constructor.
  - constructor; [done|]. by rewrite negb_false_iff.
  - by constructor.
  - by econstructor.
  - by constructor.
  - by constructor.
  - by constructor.
Qed.

Lemma run_from s0 sched : ∀ s s',
  reachable s0 s → run sched s = Some s' → reachable s0 s'.
Proof.
  induction sched as [|l sched IH]; simpl; intros s s' Hr Hrun.
  - by simplify_eq.
  - destruct (exec l s) as [s1|] eqn:He; [|done].
    eapply IH; [|done]. eapply reach_step; [done|]. by apply exec_sound.
Qed.

Lemma run_reachable sched s s' : run sched s = Some s' → reachable s s'.
Proof. apply run_from. constructor. Qed.

(** *** The invariant holds along every interleaving *)

Lemma lookup_upd (ps : list pc) i p p' j q :
  ps !! i = Some p → <[i:=p']> ps !! j = Some q →
  (j = i ∧ q = p') ∨ (j ≠ i ∧ ps !! j = Some q).
Proof.
  intros Hi Hj. apply list_lookup_insert_Some in Hj.
  destruct Hj as [(-> & -> & _) | (Hne & Hj)]; [by left | right].
  split; [congruence | done].
Qed.

Lemma lookup_upd_self (ps : list pc) i p p' :
  ps !! i = Some p → <[i:=p']> ps !! i = Some p'.
Proof.
  intros Hi. apply list_lookup_insert_eq. by eapply lookup_lt_Some.
Qed.

Lemma inv_init n open0 : inv (init n open0) (init n open0).
Proof.
  split; simpl.
  - intros i p [-> _]%lookup_replicate. done.
  - intros i j p q [-> _]%lookup_replicate. done.
  - intros i [? _]%lookup_replicate. done.
  - by left.
Qed.

(** A thread that moves to a point inside the region keeps the state from
    being idle. *)
Lemma not_all_outside g (ps : list pc) i p p' :
  ps !! i = Some p → in_region p' = true →
  ¬ all_outside (Sys g (<[i:=p']> ps)).
Proof.
  intros Hi Hp' Hall.
  specialize (Hall i p' (lookup_upd_self _ _ _ _ Hi)). congruence.
Qed.

Local Ltac still_busy Hi :=
  let Hall := fresh "Hall" in
  intros Hall; exfalso;
  eapply (not_all_outside _ _ _ _ _ Hi); [|exact Hall]; reflexivity.

(** A move of the thread in the region, staying in the region, keeps the
    first two parts of the invariant when the lock stays locked. *)
Lemma inv_move_inside s0 g g' ps i p p' :
  inv s0 (Sys g ps) →
  ps !! i = Some p → in_region p = true →
  my_lock g' = my_lock g →
  (∀ k q, <[i:=p']> ps !! k = Some q → in_region q = true →
          my_lock g' = true)
  ∧ (∀ k l q r, <[i:=p']> ps !! k = Some q → <[i:=p']> ps !! l = Some r →
          in_region q = true → in_region r = true → k = l).
Proof.
  intros [HA HB _ _] Hi Hp Hlock; simpl in *. split.
  - intros k q Hk Hq. rewrite Hlock. eauto.
  - intros k l q r Hk Hl Hq Hr.
    destruct (lookup_upd _ _ _ _ _ _ Hi Hk) as [[-> ->]|[? Hk']];
    destruct (lookup_upd _ _ _ _ _ _ Hi Hl) as [[-> ->]|[? Hl']]; eauto.
Qed.

Lemma inv_step s0 s l s' : inv s0 s → step s l s' → inv s0 s'.
Proof.
  intros Hinv Hstep.
  destruct Hstep as
    [g ps i g' Hi Hacq | g ps i Hi Hop | g ps i g' Hi Hop Hdo
    | g ps i e Hi Hop Hdo | g ps i failed b Hi | g ps i Hi
    | g ps i g' Hi Hrel].
  - (* Acquire: the lock was free, so the region was empty *)
    unfold lock_acquire in Hacq.
    destruct (my_lock g) eqn:Hl; [done|]. simplify_eq.
    assert (Hnone : ∀ k q, ps !! k = Some q → in_region q = false).
    { intros k q Hk. destruct (in_region q) eqn:Hq; [|done].
      pose proof (inv_locked _ _ Hinv k q Hk Hq) as Hc. simpl in Hc.
      congruence. }
    split; simpl.
    + done.
    + intros k l q r Hk Hl' Hq Hr.
      destruct (lookup_upd _ _ _ _ _ _ Hi Hk) as [[-> ->]|[? Hk']];
      destruct (lookup_upd _ _ _ _ _ _ Hi Hl') as [[-> ->]|[? Hl'']];
        try done.
      * rewrite (Hnone _ _ Hl'') in Hr. done.
      * rewrite (Hnone _ _ Hk') in Hq. done.
      * rewrite (Hnone _ _ Hk') in Hq. done.
    + intros k Hk.
      destruct (lookup_upd _ _ _ _ _ _ Hi Hk) as [[-> ?]|[? Hk']]; [done|].
      by specialize (Hnone _ _ Hk').
    + still_busy Hi.
  - (* the port was open already *)
    destruct (inv_move_inside s0 g g ps i Entering Holding Hinv Hi eq_refl eq_refl)
      as [HA HB].
    split; simpl; [done | done | |].
    + intros k Hk.
      destruct (lookup_upd _ _ _ _ _ _ Hi Hk) as [[-> ?]|[? Hk']]; [done|].
      by apply (inv_closing _ _ Hinv k).
    + still_busy Hi.
  - (* open() succeeded *)
    unfold dev_open in Hdo. apply negb_true_iff in Hop. rewrite Hop in Hdo.
    simplify_eq.
    destruct (inv_move_inside s0 g (Guard true (my_lock g)) ps i Entering Holding
                Hinv Hi eq_refl eq_refl) as [HA HB].
    split; simpl; [done | done | |].
    + intros k Hk.
      destruct (lookup_upd _ _ _ _ _ _ Hi Hk) as [[-> ?]|[Hne Hk']]; [done|].
      destruct Hne.
      by apply (inv_single _ _ Hinv k i Closing Entering).
    + still_busy Hi.
  - (* open() raised: the thread is outside again, the lock stays locked *)
    apply negb_true_iff in Hop.
    split; simpl.
    + intros k q Hk Hq.
      destruct (lookup_upd _ _ _ _ _ _ Hi Hk) as [[-> ->]|[? Hk']]; [done|].
      by apply (inv_locked _ _ Hinv k q).
    + intros k l q r Hk Hl Hq Hr.
      destruct (lookup_upd _ _ _ _ _ _ Hi Hk) as [[-> ->]|[? Hk']]; [done|].
      destruct (lookup_upd _ _ _ _ _ _ Hi Hl) as [[-> ->]|[? Hl']]; [done|].
      by apply (inv_single _ _ Hinv k l q r).
    + intros k Hk.
      destruct (lookup_upd _ _ _ _ _ _ Hi Hk) as [[-> ?]|[? Hk']]; done.
    + intros _. by right.
  - (* the body of the block ends *)
    destruct (inv_move_inside s0 g (Guard b (my_lock g)) ps i Holding Exiting
                Hinv Hi eq_refl eq_refl) as [HA HB].
    split; simpl; [done | done | |].
    + intros k Hk.
      destruct (lookup_upd _ _ _ _ _ _ Hi Hk) as [[-> ?]|[Hne Hk']]; [done|].
      destruct Hne.
      by apply (inv_single _ _ Hinv k i Closing Holding).
    + still_busy Hi.
  - (* close() *)
    destruct (inv_move_inside s0 g (dev_close g) ps i Exiting Closing
                Hinv Hi eq_refl eq_refl) as [HA HB].
    split; simpl; [done | done | done |].
    still_busy Hi.
  - (* release() *)
    unfold lock_release in Hrel.
    destruct (my_lock g) eqn:Hl; [|done]. simplify_eq.
    pose proof (inv_closing _ _ Hinv i Hi) as Hclosed. simpl in Hclosed.
    assert (Hnone : ∀ k q, k ≠ i → ps !! k = Some q → in_region q = false).
    { intros k q Hne Hk. destruct (in_region q) eqn:Hq; [|done].
      destruct Hne. by apply (inv_single _ _ Hinv k i q Closing). }
    split; simpl.
    + intros k q Hk Hq.
      destruct (lookup_upd _ _ _ _ _ _ Hi Hk) as [[-> ->]|[Hne Hk']]; [done|].
      rewrite (Hnone _ _ Hne Hk') in Hq. done.
    + intros k l q r Hk Hl' Hq Hr.
      destruct (lookup_upd _ _ _ _ _ _ Hi Hk) as [[-> ->]|[Hne Hk']]; [done|].
      rewrite (Hnone _ _ Hne Hk') in Hq. done.
    + intros k Hk.
      destruct (lookup_upd _ _ _ _ _ _ Hi Hk) as [[-> ?]|[Hne Hk']]; [done|].
      by specialize (Hnone _ _ Hne Hk').
    + intros _. by right.
Qed.

Lemma inv_reachable s0 s : inv s0 s0 → reachable s0 s → inv s0 s.
Proof.
  intros H0 Hr. induction Hr as [|s l s' _ IH Hstep]; [done|].
  by eapply inv_step.
Qed.

(** While a thread is in the region no [my_lock.acquire()] returns. *)
Lemma acquire_waits n open0 s i p j s' :
  reachable (init n open0) s →
  pcs s !! i = Some p → in_region p = true →
  ¬ step s (j, Acquire) s'.
Proof.
  intros Hr Hi Hp Hstep.
  pose proof (inv_locked _ _ (inv_reachable _ _ (inv_init n open0) Hr) i p Hi Hp)
    as Hl.
  inversion Hstep as [g ps j' g' Hj Hacq| | | | | |]; subst; simpl in *.
  unfold lock_acquire in Hacq. by rewrite Hl in Hacq.
Qed.

(** *** The steps are the methods cut at their primitive calls *)

Lemma enter_returned granted g g' :
  __enter__ granted g = Returned g' →
  ∃ a, run [(0, Acquire); (0, a)] (Sys g [Outside]) = Some (Sys g' [Holding]).
Proof.
  destruct g as [[] []], granted; intros Hr; vm_compute in Hr; simplify_eq;
    first [by exists OpenSkip | by exists OpenOk].
Qed.

Lemma enter_raised granted g e g' :
  __enter__ granted g = Raised e g' →
  run [(0, Acquire); (0, OpenFail)] (Sys g [Outside]) = Some (Sys g' [Outside]).
Proof.
  destruct g as [[] []], granted; intros Hr; vm_compute in Hr; by simplify_eq.
Qed.

Lemma enter_blocked granted g g' :
  __enter__ granted g = Blocked g' →
  g' = g ∧ exec (0, Acquire) (Sys g [Outside]) = None.
Proof.
  destruct g as [[] []], granted; intros Hr; vm_compute in Hr; by simplify_eq.
Qed.

Lemma exit_returned g g' :
  __exit__ g = Returned g' →
  run [(0, Close); (0, Release)] (Sys g [Exiting]) = Some (Sys g' [Outside]).
Proof. destruct g as [[] []]; intros Hr; vm_compute in Hr; by simplify_eq. Qed.

(** [__exit__] leaves the port closed on each of its outcomes. *)
Lemma exit_closes g : is_open (guard_of (__exit__ g)) = false.
Proof. by destruct g as [[] []]. Qed.

(** *** The claims *)

(** C1.  Mutual exclusion.  Take any number [n] of threads that use one
    guard through [with] blocks, the port open or closed at the start, and
    any interleaving of their primitive steps.  In every state that can be
    reached, two threads that both stand between the return of
    [my_lock.acquire()] in [__enter__] and [my_lock.release()] in
    [__exit__] are one and the same thread.  The region named here begins
    already inside [__enter__], so it contains the window between a
    successful [__enter__] and the matching [__exit__]. *)
Theorem mutual_exclusion n open0 s i j p q :
  reachable (init n open0) s →
  pcs s !! i = Some p → pcs s !! j = Some q →
  in_region p = true → in_region q = true →
  i = j.
Proof.
  intros Hr. apply (inv_single _ _ (inv_reachable _ _ (inv_init n open0) Hr)).
Qed.

Lemma mutual_exclusion_witness :
  reachable (init 3 false) (Sys (Guard true true) [Outside; Holding; Outside])
  ∧ 1 = 1.
Proof.
  assert (Hr : reachable (init 3 false)
                 (Sys (Guard true true) [Outside; Holding; Outside])).
  { apply (run_reachable [(1, Acquire); (1, OpenOk)]). reflexivity. }
  split; [exact Hr|].
  apply (mutual_exclusion 3 false _ 1 1 Holding Holding Hr);
    reflexivity.
Defined.

(** C2, as the code has it.  With the lock free and the port closed, an
    [__enter__] whose [open()] is refused raises the exception of
    [serial.Serial.open] and leaves [my_lock] locked: nothing between the
    acquire and the raise releases it, and a [with] statement does not call
    [__exit__] when [__enter__] raised.  Every later [__enter__] on the
    guard then waits in [my_lock.acquire()]; in the system of threads the
    state after the refused open has every thread outside the block, the
    lock locked, and no step left to take. *)
Theorem open_failure_keeps_lock :
  __enter__ false (Guard false false) = Raised SerialException (Guard false true)
  ∧ (∀ granted,
       __enter__ granted (Guard false true) = Blocked (Guard false true))
  ∧ ∃ s, run [(0, Acquire); (0, OpenFail)] (init 2 false) = Some s
         ∧ my_lock (dev s) = true
         ∧ all_outside s
         ∧ ∀ l s', ¬ step s l s'.
Proof.
  split; [done|]. split; [by intros []|].
  exists (Sys (Guard false true) [Outside; Outside]).
  split; [done|]. split; [done|]. split.
  - intros [|[|i]] p Hp; simpl in Hp; by simplify_eq.
  - intros l s' Hstep. inversion Hstep; subst;
      match goal with
      | H : [Outside; Outside] !! ?i = Some _ |- _ =>
          destruct i as [|[|?]]; simpl in H; simplify_eq
      end;
      match goal with
      | H : lock_acquire _ = Some _ |- _ => by vm_compute in H
      end.
Qed.

(** C3, amended.  In every state the threads can reach, from a port open
    or closed at the start:
    - a thread that has left the body of its block, whether the body ended
      normally or raised and whether it left the port open or closed, runs
      an [__exit__] that returns with the port closed and the lock free;
    - when [my_lock.release()] is taken the port is closed already, and it
      is closed and the lock free right after;
    - when no thread is inside a block, the port is closed, unless nothing
      has happened yet on a guard that was constructed open. *)
Theorem release_leaves_closed n open0 s :
  reachable (init n open0) s →
  (∀ i, pcs s !! i = Some Exiting →
        __exit__ (dev s) = Returned (Guard false false))
  ∧ (∀ i s', step s (i, Release) s' →
        is_open (dev s) = false ∧ dev s' = Guard false false)
  ∧ (all_outside s → s = init n open0 ∨ is_open (dev s) = false).
Proof.
  intros Hr.
  pose proof (inv_reachable _ _ (inv_init n open0) Hr) as Hinv.
  split; [|split].
  - intros i Hi.
    pose proof (inv_locked _ _ Hinv i Exiting Hi eq_refl) as Hl.
    unfold __exit__, dev_close, lock_release; simpl. by rewrite Hl.
  - intros i s' Hstep. inversion Hstep as [| | | | | |g ps i' g' Hi Hrel]; subst.
    pose proof (inv_closing _ _ Hinv i Hi) as Hc. simpl in *.
    split; [done|].
    unfold lock_release in Hrel. destruct (my_lock g); [|done].
    simplify_eq. by rewrite Hc.
  - apply (inv_idle _ _ Hinv).
Qed.

(** The three parts on a run of two threads on a guard constructed open:
    thread 0 at the end of its body, then at its [my_lock.release()], then
    outside again. *)
Lemma release_leaves_closed_witness :
  __exit__ (Guard true true) = Returned (Guard false false)
  ∧ (is_open (Guard false true) = false
     ∧ dev (Sys (Guard false false) [Outside; Outside]) = Guard false false)
  ∧ (Sys (Guard false false) [Outside; Outside] = init 2 true
     ∨ is_open (Guard false false) = false).
Proof.
  split; [|split].
  - destruct (release_leaves_closed 2 true
                (Sys (Guard true true) [Exiting; Outside])) as (H & _ & _).
    { apply (run_reachable [(0, Acquire); (0, OpenSkip); (0, Body true true)]).
      reflexivity. }
    apply (H 0). reflexivity.
  - destruct (release_leaves_closed 2 true
                (Sys (Guard false true) [Closing; Outside])) as (_ & H & _).
    { apply (run_reachable
               [(0, Acquire); (0, OpenSkip); (0, Body true true); (0, Close)]).
      reflexivity. }
    apply (H 0). apply exec_sound. reflexivity.
  - destruct (release_leaves_closed 2 true
                (Sys (Guard false false) [Outside; Outside])) as (_ & _ & H).
    { apply (run_reachable
               [(0, Acquire); (0, OpenSkip); (0, Body true true); (0, Close);
                (0, Release)]).
      reflexivity. }
    apply H. intros [|[|i]] p Hi; simpl in Hi; by simplify_eq.
Defined.

(** C3 as stated fails on a guard whose constructor opened the port: before
    the first block is entered no thread holds the guard, the lock is free,
    and the port is open. *)
Lemma release_leaves_closed_counterexample :
  ¬ (∀ n open0 s,
       reachable (init n open0) s →
       all_outside s → my_lock (dev s) = false →
       is_open (dev s) = false).
Proof.
  intros Hclaim.
  assert (Hclosed : is_open (dev (init 1 true)) = false).
  { apply (Hclaim 1 true (init 1 true)).
    - constructor.
    - intros i p Hi. by apply lookup_replicate in Hi as [-> _].
    - reflexivity. }
  discriminate Hclosed.
Qed.

End MutexSerialProofs.

(* ===================================================================== *)
(** ** Properties of the crash-artifact manager                           *)
(* ===================================================================== *)

Module CrashOutputManagerProofs.
Import CrashOutputManager.

(** *** Strings *)

Lemma str_app_cons a (s t : string) : String a s +:+ t = String a (s +:+ t).
Proof. reflexivity. Qed.

Lemma str_app_nil_l (t : string) : "" +:+ t = t.
Proof. reflexivity. Qed.

Lemma str_app_assoc (s t u : string) : (s +:+ t) +:+ u = s +:+ t +:+ u.
Proof. induction s as [|a s IH]; [done|]. by rewrite !str_app_cons, IH. Qed.

Lemma str_app_length (s t : string) :
  String.length (s +:+ t) = String.length s + String.length t.
Proof. induction s as [|a s IH]; [done|]. rewrite str_app_cons; simpl. by rewrite IH. Qed.

Lemma str_app_ne_self (s t : string) a : s +:+ String a t ≠ s.
Proof.
  intros Heq. apply (f_equal String.length) in Heq.
  rewrite str_app_length in Heq; simpl in Heq. lia.
Qed.

Lemma str_app_inj_tail (s1 s2 t : string) : s1 +:+ t = s2 +:+ t → s1 = s2.
Proof.
  revert s2. induction s1 as [|a s1 IH]; intros [|b s2] Heq.
  - done.
  - apply (f_equal String.length) in Heq.
    rewrite str_app_nil_l, str_app_cons in Heq; simpl in Heq.
    rewrite str_app_length in Heq. lia.
  - apply (f_equal String.length) in Heq.
    rewrite str_app_nil_l, str_app_cons in Heq; simpl in Heq.
    rewrite str_app_length in Heq. lia.
  - rewrite !str_app_cons in Heq. simplify_eq. f_equal. by apply IH.
Qed.

(** *** [split] and the base name *)

Lemma str_split_first c s : ∃ rest, str_split c s = before_first c s :: rest.
Proof.
  induction s as [|a s [rest IH]]; simpl; [by eexists|].
  destruct (decide (a = c)); [by eexists|]. rewrite IH. by eexists.
Qed.

Lemma index0_split c s : index0 (str_split c s) = ret (before_first c s).
Proof. destruct (str_split_first c s) as [rest ->]. reflexivity. Qed.

Lemma before_first_free c s : str_mem c (before_first c s) = false.
Proof.
  induction s as [|a s IH]; simpl; [done|].
  destruct (decide (a = c)); simpl; [done|].
  rewrite IH, bool_decide_eq_false_2; done.
Qed.

Lemma before_first_cases c s :
  (s = before_first c s ∧ str_mem c s = false)
  ∨ (∃ r, s = before_first c s +:+ String c r ∧ str_mem c s = true).
Proof.
  induction s as [|a s IH]; simpl; [by left|].
  destruct (decide (a = c)) as [->|Hne]; simpl.
  - right. exists s. by rewrite bool_decide_eq_true_2.
  - rewrite (bool_decide_eq_false_2 _ Hne); simpl.
    destruct IH as [[IH ?]|[r [IH ?]]].
    + left. split; [by rewrite <- IH|done].
    + right. exists r. split; [|done]. rewrite str_app_cons. by rewrite <- IH.
Qed.

Lemma before_first_unique c a r :
  str_mem c a = false → before_first c (a +:+ String c r) = a.
Proof.
  induction a as [|x a IH]; simpl; intros Hfree.
  - by rewrite decide_True.
  - apply orb_false_iff in Hfree as [Hx Hfree].
    apply bool_decide_eq_false in Hx.
    rewrite ?str_app_cons; simpl. rewrite decide_False by done. by rewrite IH.
Qed.

(** *** The two methods, step by step *)

Section managers.
Context `{P : Platform}.


Lemma crash_log_manager_eq name flag w :
  crash_log_manager name flag w =
  match fs w !! crash_log_folder w with
  | Some Dir => log_use (crash_log_path w name) flag w
  | Some (File _) =>
      (inl (FileExistsError (crash_log_folder w)),
       add_call (CallMkdir (crash_log_folder w)) w)
  | None => log_use (crash_log_path w name) flag (made (crash_log_folder w) w)
  end.
Proof.
  unfold crash_log_manager, crash_log_path, crash_log_folder, log_use, made.
  unfold bind at 1; simpl. unfold bind at 1; simpl.
  destruct (fs w !! (os_path_dirname (cwd w) +:+ "\" +:+ "Crash Logs"))
    as [[c|]|] eqn:Hdir.
  - rewrite bool_decide_eq_false_2 by done; simpl.
    unfold bind at 1, os_mkdir, bind, traced; simpl. by rewrite Hdir.
  - rewrite bool_decide_eq_true_2 by done; simpl.
    unfold bind at 1; simpl. rewrite index0_split. reflexivity.
  - rewrite bool_decide_eq_false_2 by done; simpl.
    unfold bind at 1, os_mkdir, bind at 1, traced; simpl. rewrite Hdir.
    rewrite index0_split. reflexivity.
Qed.

Lemma crash_data_manager_eq name src w :
  crash_data_manager name src w =
  match fs w !! crash_data_folder w with
  | Some Dir => data_use src (crash_data_path w name) w
  | Some (File _) =>
      (inl (FileExistsError (crash_data_folder w)),
       add_call (CallMkdir (crash_data_folder w)) w)
  | None => data_use src (crash_data_path w name) (made (crash_data_folder w) w)
  end.
Proof.
  unfold crash_data_manager, crash_data_path, crash_data_folder, data_use, made.
  unfold bind at 1; simpl. unfold bind at 1; simpl.
  destruct (fs w !! (os_path_dirname (cwd w) +:+ "\" +:+ "Crash Data"))
    as [[c|]|] eqn:Hdir.
  - rewrite bool_decide_eq_false_2 by done; simpl.
    unfold bind at 1, os_mkdir, bind, traced; simpl. by rewrite Hdir.
  - rewrite bool_decide_eq_true_2 by done; simpl.
    unfold bind at 1; simpl. rewrite index0_split. reflexivity.
  - rewrite bool_decide_eq_false_2 by done; simpl.
    unfold bind at 1, os_mkdir, bind at 1, traced; simpl. rewrite Hdir.
    rewrite index0_split. reflexivity.
Qed.

(** The folder once settled is a directory, and nothing else moved. *)
Lemma settled_lookup dir w q :
  (∀ c, fs w !! dir ≠ Some (File c)) →
  fs (settled dir w) !! q = if decide (q = dir) then Some Dir else fs w !! q.
Proof.
  intros Hnf. unfold settled.
  destruct (bool_decide_reflect (fs w !! dir = Some Dir)) as [Hd|Hd].
  - case_decide; by subst.
  - simpl. case_decide; subst.
    + by rewrite lookup_insert_eq.
    + by rewrite lookup_insert_ne.
Qed.

(** Room for a file, read in the world with the folder settled. *)
Lemma has_room_settled dir p w :
  p ≠ dir → (∀ c, fs w !! dir ≠ Some (File c)) →
  has_room dir p w ↔
  (fs (settled dir w) !! p ≠ None ∨ can_make p (fs (settled dir w)) = true).
Proof.
  intros Hne Hnf. unfold has_room, can_make, parent_is_dir.
  rewrite andb_true_iff, bool_decide_eq_true, !settled_lookup by done.
  rewrite (decide_False (P := p = dir)) by done.
  case_decide as Hd.
  - split; (intros [?|[? _]]; [by left|right]); [done|].
    split; [done|by left].
  - split; (intros [?|[? H]]; [by left|right]); (split; [done|]).
    + by destruct H.
    + by right.
Qed.

Lemma refusal_not_index p : refusal p ≠ IndexError.
Proof. unfold refusal. by destruct (path_valid p). Qed.

(** The log file receives exactly one record, after what it held. *)
Lemma log_use_ok p flag w :
  fs w !! p ≠ Some Dir →
  fs w !! p ≠ None ∨ can_make p (fs w) = true →
  log_use p flag w =
  (inr p,
   World (cwd w)
         (<[p:=File (content_at w p
                     +:+ format_record "ERROR" "root" (crash_message flag w))]>
            (fs w))
         [p] (exc_info w)
         (calls w ++ [CallBasicConfig p; CallLogError (crash_message flag w)])).
Proof.
  intros Hnd Hroom.
  unfold log_use, logging_basicConfig, bind, traced, content_at, crash_message.
  simpl.
  destruct (fs w !! p) as [[c|]|] eqn:Hp; [|done|].
  - destruct flag; simpl;
      unfold logging_error, traceback_format_exc, bind, traced, ret,
        append_file; simpl;
      rewrite Hp; unfold set_fs, add_call, set_handlers; simpl;
      rewrite <- (assoc_L (++)); reflexivity.
  - destruct Hroom as [?|Hpar]; [done|]. rewrite Hpar.
    destruct flag; simpl;
      unfold logging_error, traceback_format_exc, bind, traced, ret,
        append_file; simpl;
      rewrite lookup_insert_eq; unfold set_fs, add_call, set_handlers; simpl;
      rewrite insert_insert_eq, <- (assoc_L (++)); reflexivity.
Qed.

Lemma log_use_dir p flag w :
  fs w !! p = Some Dir →
  log_use p flag w =
  (inl (IsADirectoryError p), set_handlers [] (add_call (CallBasicConfig p) w)).
Proof.
  intros Hp. unfold log_use, logging_basicConfig, bind, traced; simpl.
  by rewrite Hp.
Qed.

(** No file at the log path and no directory to make it in: the open of
    the handler raises, and the root logger is left without handlers. *)
Lemma log_use_no_room p flag w :
  fs w !! p = None → can_make p (fs w) = false →
  log_use p flag w =
  (inl (refusal p), set_handlers [] (add_call (CallBasicConfig p) w)).
Proof.
  intros Hp Hpar. unfold log_use, logging_basicConfig, bind, traced; simpl.
  by rewrite Hp, Hpar.
Qed.

(** The three ways [log_use] ends. *)
Lemma log_use_cases p flag w :
  (fs w !! p = Some Dir
   ∧ log_use p flag w =
     (inl (IsADirectoryError p), set_handlers [] (add_call (CallBasicConfig p) w)))
  ∨ (fs w !! p = None ∧ can_make p (fs w) = false
     ∧ log_use p flag w =
       (inl (refusal p),
        set_handlers [] (add_call (CallBasicConfig p) w)))
  ∨ (fs w !! p ≠ Some Dir
     ∧ (fs w !! p ≠ None ∨ can_make p (fs w) = true)
     ∧ ∃ w', log_use p flag w = (inr p, w')).
Proof.
  destruct (fs w !! p) as [[c|]|] eqn:Hp.
  - right; right. split; [done|]. split; [by left|].
    eexists. apply log_use_ok; [by rewrite Hp | left; by rewrite Hp].
  - left. split; [done|]. by apply log_use_dir.
  - destruct (can_make p (fs w)) eqn:Hpar.
    + right; right. split; [done|]. split; [by right|].
      eexists. apply log_use_ok; [by rewrite Hp | by right].
    + right; left. split; [done|]. split; [done|]. by apply log_use_no_room.
Qed.

(** A regular file is moved onto a destination that is not a directory
    and that there is room for. *)
Lemma data_use_file src p c w :
  fs w !! src = Some (File c) → fs w !! p ≠ Some Dir →
  src = p ∨ fs w !! p ≠ None ∨ can_make p (fs w) = true →
  data_use src p w =
  (inr p,
   if decide (src = p) then add_call (CallMove src p) w
   else set_fs (<[p:=File c]> (delete src (fs w))) (add_call (CallMove src p) w)).
Proof.
  intros Hsrc Hp Hroom.
  unfold data_use, shutil_move, bind, traced, os_path_isdir, os_path_exists.
  simpl. rewrite (bool_decide_eq_false_2 _ Hp); simpl. rewrite Hsrc.
  destruct (decide (src = p)); [done|].
  change (path_valid p && parent_is_dir p (fs w)) with (can_make p (fs w)).
  destruct Hroom as [?|[Hthere|Hpar]]; [done| |rewrite Hpar].
  - rewrite bool_decide_eq_true_2; [done|].
    by destruct (fs w !! p); [eexists|].
  - by rewrite orb_true_r.
Qed.

(** A regular file is not moved to where there is no room for it: the move
    raises and changes nothing. *)
Lemma data_use_no_room src p c w :
  fs w !! src = Some (File c) → src ≠ p →
  fs w !! p = None → can_make p (fs w) = false →
  data_use src p w = (inl (refusal p), add_call (CallMove src p) w).
Proof.
  intros Hsrc Hne Hp Hpar.
  unfold data_use, shutil_move, bind, traced, os_path_isdir, os_path_exists.
  simpl. rewrite Hp.
  rewrite (bool_decide_eq_false_2 (None = Some Dir)) by done; simpl.
  rewrite Hp, Hsrc, decide_False by done.
  rewrite (bool_decide_eq_false_2 (is_Some None)) by (by intros [? ?]).
  change (path_valid p && parent_is_dir p (fs w)) with (can_make p (fs w)).
  by rewrite Hpar.
Qed.

(** A source that names nothing: the move raises and changes nothing. *)
Lemma data_use_missing src p w :
  fs w !! src = None →
  ∃ e, data_use src p w = (inl e, add_call (CallMove src p) w)
       ∧ (e = FileNotFoundError src ∨ ∃ q, e = ShutilError q).
Proof.
  intros Hsrc.
  unfold data_use, shutil_move, bind, traced, os_path_isdir, os_path_exists,
    raise.
  simpl.
  destruct (bool_decide_reflect (fs w !! p = Some Dir)) as [Hd|Hd]; simpl.
  - rewrite bool_decide_eq_false_2 by (intros ->; congruence).
    destruct (bool_decide (is_Some (fs w !! os_path_join p (os_path_basename src))));
      simpl; [by eauto|]. rewrite Hsrc. by eauto.
  - rewrite Hsrc. by eauto.
Qed.

(** No move changes the working directory. *)
Lemma shutil_move_cwd src dst w r w' :
  shutil_move src dst w = (r, w') → cwd w' = cwd w.
Proof.
  unfold shutil_move, bind, traced, os_path_isdir, os_path_exists, raise, ret.
  simpl.
  repeat match goal with
  | |- context [if ?b then _ else _] => destruct b; simpl
  | |- context [match fs ?x !! ?k with _ => _ end] =>
      destruct (fs x !! k) as [[?|]|]; simpl
  | |- context [match move_tree ?a ?b ?c with _ => _ end] =>
      destruct (move_tree a b c); simpl
  end; intros; by simplify_eq.
Qed.

(** *** Paths of the layout are distinct where their parts are *)

Lemma log_path_not_folder w name : crash_log_path w name ≠ crash_log_folder w.
Proof. apply str_app_ne_self. Qed.

Lemma data_path_not_folder w name : crash_data_path w name ≠ crash_data_folder w.
Proof. apply str_app_ne_self. Qed.

Lemma log_path_inj w n1 n2 :
  crash_log_path w n1 = crash_log_path w n2 →
  before_first "."%char n1 = before_first "."%char n2.
Proof.
  unfold crash_log_path. intros Heq.
  apply (inj (String.app _)), (inj (String.app _)) in Heq.
  by apply str_app_inj_tail in Heq.
Qed.

(** The value a returning call hands back. *)
Lemma returned_paths name flag src w :
  match crash_log_manager name flag w with
  | (inr p, _) => p = crash_log_path w name
  | _ => True
  end
  ∧ match crash_data_manager name src w with
    | (inr p, _) => p = crash_data_path w name
    | _ => True
    end.
Proof.
  assert (Hlog : ∀ w1, match log_use (crash_log_path w name) flag w1 with
                       | (inr p, _) => p = crash_log_path w name
                       | _ => True
                       end).
  { intros w1.
    destruct (log_use_cases (crash_log_path w name) flag w1)
      as [[_ ->]|[(_ & _ & ->)|(_ & _ & w' & ->)]]; done. }
  split.
  - rewrite crash_log_manager_eq.
    destruct (fs w !! crash_log_folder w) as [[c|]|] eqn:Hdir; [done|..];
      apply Hlog.
  - rewrite crash_data_manager_eq. unfold data_use, bind.
    destruct (fs w !! crash_data_folder w) as [[c|]|] eqn:Hdir; [done| |].
    + by destruct (shutil_move src (crash_data_path w name) w) as [[e|q] w2].
    + by destruct (shutil_move src (crash_data_path w name)
                     (made (crash_data_folder w) w)) as [[e|q] w2].
Qed.

Lemma settled_other dir w q : q ≠ dir → fs (settled dir w) !! q = fs w !! q.
Proof.
  intros Hne. unfold settled. destruct (bool_decide _); [done|].
  simpl. by rewrite lookup_insert_ne.
Qed.

Lemma settled_calls dir w :
  calls (settled dir w) = calls w
  ∨ calls (settled dir w) = calls w ++ [CallMkdir dir].
Proof. unfold settled. destruct (bool_decide _); [by left | by right]. Qed.

(** Each method goes on in the world with its folder settled. *)
Lemma log_manager_settled name flag w :
  (∀ c, fs w !! crash_log_folder w ≠ Some (File c)) →
  crash_log_manager name flag w
  = log_use (crash_log_path w name) flag (settled (crash_log_folder w) w).
Proof.
  intros Hfolder. rewrite crash_log_manager_eq. unfold settled.
  destruct (fs w !! crash_log_folder w) as [[c0|]|] eqn:Hdir.
  - by destruct (Hfolder c0).
  - by rewrite bool_decide_eq_true_2.
  - by rewrite bool_decide_eq_false_2.
Qed.

Lemma data_manager_settled name src w :
  (∀ c, fs w !! crash_data_folder w ≠ Some (File c)) →
  crash_data_manager name src w
  = data_use src (crash_data_path w name) (settled (crash_data_folder w) w).
Proof.
  intros Hfolder. rewrite crash_data_manager_eq. unfold settled.
  destruct (fs w !! crash_data_folder w) as [[c0|]|] eqn:Hdir.
  - by destruct (Hfolder c0).
  - by rewrite bool_decide_eq_true_2.
  - by rewrite bool_decide_eq_false_2.
Qed.

(** The whole of a returning [crash_log_manager], as one equation. *)
Lemma log_manager_result name flag w :
  (∀ c, fs w !! crash_log_folder w ≠ Some (File c)) →
  fs w !! crash_log_path w name ≠ Some Dir →
  has_room (crash_log_folder w) (crash_log_path w name) w →
  crash_log_manager name flag w =
  (inr (crash_log_path w name),
   World (cwd w)
     (<[crash_log_path w name :=
          File (content_at w (crash_log_path w name)
                +:+ format_record "ERROR" "root" (crash_message flag w))]>
        (fs (settled (crash_log_folder w) w)))
     [crash_log_path w name] (exc_info w)
     (calls (settled (crash_log_folder w) w)
      ++ [CallBasicConfig (crash_log_path w name);
          CallLogError (crash_message flag w)])).
Proof.
  intros Hfolder Hpath Hroom. rewrite log_manager_settled by done.
  pose proof (log_path_not_folder w name) as Hpf.
  apply has_room_settled in Hroom; [|done..].
  rewrite log_use_ok; [| by rewrite settled_other | done].
  unfold content_at, crash_message. rewrite settled_other by done.
  unfold settled. by destruct (bool_decide _).
Qed.

(** The whole of a [crash_log_manager] that finds no room for its file. *)
Lemma log_manager_no_room name flag w :
  (∀ c, fs w !! crash_log_folder w ≠ Some (File c)) →
  fs w !! crash_log_path w name ≠ Some Dir →
  ¬ has_room (crash_log_folder w) (crash_log_path w name) w →
  crash_log_manager name flag w =
  (inl (refusal (crash_log_path w name)),
   set_handlers [] (add_call (CallBasicConfig (crash_log_path w name))
                      (settled (crash_log_folder w) w))).
Proof.
  intros Hfolder Hpath Hroom. rewrite log_manager_settled by done.
  pose proof (log_path_not_folder w name) as Hpf.
  rewrite has_room_settled in Hroom by done.
  apply log_use_no_room.
  - destruct (fs (settled (crash_log_folder w) w) !! crash_log_path w name)
      eqn:Hp; [|done]. destruct Hroom. left. congruence.
  - destruct (can_make _ _) eqn:Hpar; [|done]. destruct Hroom. by right.
Qed.

(** The whole of a [crash_data_manager] that is handed a regular file. *)
Lemma data_manager_result name src w c :
  (∀ c0, fs w !! crash_data_folder w ≠ Some (File c0)) →
  fs w !! src = Some (File c) →
  src ≠ crash_data_path w name →
  fs w !! crash_data_path w name ≠ Some Dir →
  has_room (crash_data_folder w) (crash_data_path w name) w →
  crash_data_manager name src w =
  (inr (crash_data_path w name),
   set_fs (<[crash_data_path w name := File c]>
             (delete src (fs (settled (crash_data_folder w) w))))
          (add_call (CallMove src (crash_data_path w name))
             (settled (crash_data_folder w) w))).
Proof.
  intros Hfolder Hsrc Hne Hdst Hroom. rewrite data_manager_settled by done.
  pose proof (data_path_not_folder w name) as Hpf.
  assert (Hsf : src ≠ crash_data_folder w).
  { intros ->. by destruct (Hfolder c). }
  apply has_room_settled in Hroom; [|done..].
  rewrite (data_use_file _ _ c).
  - by rewrite decide_False.
  - by rewrite settled_other.
  - by rewrite settled_other.
  - by right.
Qed.

(** The whole of a [crash_data_manager] that finds no room for the file. *)
Lemma data_manager_no_room name src w c :
  (∀ c0, fs w !! crash_data_folder w ≠ Some (File c0)) →
  fs w !! src = Some (File c) →
  src ≠ crash_data_path w name →
  ¬ has_room (crash_data_folder w) (crash_data_path w name) w →
  crash_data_manager name src w =
  (inl (refusal (crash_data_path w name)),
   add_call (CallMove src (crash_data_path w name))
     (settled (crash_data_folder w) w)).
Proof.
  intros Hfolder Hsrc Hne Hroom. rewrite data_manager_settled by done.
  pose proof (data_path_not_folder w name) as Hpf.
  assert (Hsf : src ≠ crash_data_folder w).
  { intros ->. by destruct (Hfolder c). }
  rewrite has_room_settled in Hroom by done.
  apply (data_use_no_room _ _ c).
  - by rewrite settled_other.
  - done.
  - destruct (fs (settled (crash_data_folder w) w) !! crash_data_path w name)
      eqn:Hp; [|done]. destruct Hroom. left. congruence.
  - destruct (can_make _ _) eqn:Hpar; [|done]. destruct Hroom. by right.
Qed.

(** What a return tells about the world the call started in. *)
Lemma log_manager_returned name flag w p w' :
  crash_log_manager name flag w = (inr p, w') →
  p = crash_log_path w name
  ∧ (∀ c, fs w !! crash_log_folder w ≠ Some (File c))
  ∧ fs w !! crash_log_path w name ≠ Some Dir
  ∧ has_room (crash_log_folder w) (crash_log_path w name) w.
Proof.
  intros Hcall.
  pose proof (returned_paths name flag "" w) as [Hp _].
  rewrite Hcall in Hp. split; [done|].
  assert (Hfolder : ∀ c, fs w !! crash_log_folder w ≠ Some (File c)).
  { intros c Hc. rewrite crash_log_manager_eq, Hc in Hcall. done. }
  split; [done|].
  pose proof (log_path_not_folder w name) as Hpf.
  rewrite log_manager_settled in Hcall by done.
  destruct (log_use_cases (crash_log_path w name) flag
              (settled (crash_log_folder w) w))
    as [[_ He]|[(_ & _ & He)|(Hnd & Hroom & _)]];
    [by rewrite He in Hcall..|].
  rewrite settled_other in Hnd by done. split; [done|].
  by apply has_room_settled.
Qed.

Lemma data_manager_returned name src w p w' :
  crash_data_manager name src w = (inr p, w') →
  p = crash_data_path w name
  ∧ (∀ c, fs w !! crash_data_folder w ≠ Some (File c)).
Proof.
  intros Hcall.
  pose proof (returned_paths name false src w) as [_ Hp].
  rewrite Hcall in Hp. split; [done|].
  rewrite crash_data_manager_eq in Hcall.
  by destruct (fs w !! crash_data_folder w) as [[c0|]|].
Qed.

(** A return with a regular file moved tells that there was room for it. *)
Lemma data_manager_room name src w c p w' :
  fs w !! src = Some (File c) →
  src ≠ crash_data_path w name →
  crash_data_manager name src w = (inr p, w') →
  has_room (crash_data_folder w) (crash_data_path w name) w.
Proof.
  intros Hsrc Hne Hcall.
  destruct (data_manager_returned _ _ _ _ _ Hcall) as [_ Hfolder].
  destruct (decide (fs w !! crash_data_path w name = None)) as [Hp|Hp];
    [|by left].
  destruct (path_valid (crash_data_path w name)) eqn:Hv.
  - destruct (decide (os_path_dirname (crash_data_path w name)
                      = crash_data_folder w)) as [Hd|Hd];
      [by right; split; [|left]|].
    destruct (decide (fs w !! os_path_dirname (crash_data_path w name)
                      = Some Dir)) as [Hpar|Hpar]; [by right; split; [|right]|].
    rewrite (data_manager_no_room name src w c) in Hcall; [done..|].
    by intros [?|[_ [?|?]]].
  - rewrite (data_manager_no_room name src w c) in Hcall; [done..|].
    intros [?|[? _]]; [done|congruence].
Qed.

(** *** The claims *)

(** C5.  Name derivation, for every input file name.  The base the two
    methods take, [output_file_name.split(".")[0]], is the name with
    everything from its first "." onward removed: either the name holds
    no "." and the base is the whole name, or the name is the base, a ".",
    and a rest, the base holding no "." itself.  The index never fails.
    The path a method returns ends, after the folder and a separator, in
    that base followed by "_CRASHLOG.log", respectively "_CRASHDUMP.txt";
    and no call raises [IndexError]. *)
Theorem name_derivation name flag src w :
  let base := before_first "."%char name in
  index0 (str_split "."%char name) = ret base
  ∧ ((name = base ∧ str_mem "."%char name = false)
     ∨ (∃ rest, name = base +:+ String "."%char rest
                ∧ str_mem "."%char base = false))
  ∧ match crash_log_manager name flag w with
    | (inr p, _) => p = crash_log_folder w +:+ "\" +:+ (base +:+ "_CRASHLOG.log")
    | (inl e, _) => e ≠ IndexError
    end
  ∧ match crash_data_manager name src w with
    | (inr p, _) => p = crash_data_folder w +:+ "\" +:+ (base +:+ "_CRASHDUMP.txt")
    | (inl e, _) => e ≠ IndexError
    end.
Proof.
  intros base. split; [apply index0_split|]. split.
  { destruct (before_first_cases "."%char name) as [?|[r [? _]]]; [by left|].
    right. exists r. split; [done|]. apply before_first_free. }
  split.
  - assert (Hlog : ∀ w1,
      match log_use (crash_log_path w name) flag w1 with
      | (inr p, _) => p = crash_log_path w name
      | (inl e, _) => e ≠ IndexError
      end).
    { intros w1.
      destruct (log_use_cases (crash_log_path w name) flag w1)
        as [[_ ->]|[(_ & _ & ->)|(_ & _ & w' & ->)]];
        [done|apply refusal_not_index|done]. }
    rewrite crash_log_manager_eq.
    destruct (fs w !! crash_log_folder w) as [[c|]|] eqn:Hdir; [done|..];
      apply Hlog.
  - rewrite crash_data_manager_eq. unfold data_use, bind.
    assert (Hmove : ∀ w1,
      match shutil_move src (crash_data_path w name) w1 with
      | (inl e, _) => e ≠ IndexError
      | (inr _, _) => True
      end).
    { intros w1.
      unfold shutil_move, bind, traced, os_path_isdir, os_path_exists, raise.
      simpl.
      repeat match goal with
      | |- context [if ?b then _ else _] => destruct b; simpl
      | |- context [match fs ?x !! ?k with _ => _ end] =>
          destruct (fs x !! k) as [[?|]|]; simpl
      | |- context [match move_tree ?a ?b ?c with _ => _ end] =>
          destruct (move_tree a b c) eqn:Hmt; simpl
      end; try done; apply refusal_not_index. }
    destruct (fs w !! crash_data_folder w) as [[c|]|] eqn:Hdir; [done| |].
    + specialize (Hmove w).
      by destruct (shutil_move src (crash_data_path w name) w) as [[e|q] w2].
    + specialize (Hmove (made (crash_data_folder w) w)).
      by destruct (shutil_move src (crash_data_path w name)
                     (made (crash_data_folder w) w)) as [[e|q] w2].
Qed.

(** C6.  Paths and folders, for every input name and every world.  A path
    returned by [crash_log_manager] is the parent of the working directory,
    "Crash Logs", and the base name with "_CRASHLOG.log"; one returned by
    [crash_data_manager] is that parent, "Crash Data", and the base name
    with "_CRASHDUMP.txt" (the parts joined by the backslash the module
    writes).  Each method first settles its folder: where the folder path
    names a file, [os.mkdir] raises and nothing else is done; otherwise
    the rest of the method, which configures the log file or moves the
    data file, runs in a world in which the folder is a directory, namely
    the given world if it was one already and the world with the folder
    just made if nothing was there. *)
Theorem crash_paths_and_folders name flag src w :
  match crash_log_manager name flag w with
  | (inr p, _) =>
      p = os_path_dirname (cwd w) +:+ "\" +:+ "Crash Logs" +:+ "\"
          +:+ before_first "."%char name +:+ "_CRASHLOG.log"
  | _ => True
  end
  ∧ match crash_data_manager name src w with
    | (inr p, _) =>
        p = os_path_dirname (cwd w) +:+ "\" +:+ "Crash Data" +:+ "\"
            +:+ before_first "."%char name +:+ "_CRASHDUMP.txt"
    | _ => True
    end
  ∧ ((∃ c, fs w !! crash_log_folder w = Some (File c)
           ∧ crash_log_manager name flag w =
             (inl (FileExistsError (crash_log_folder w)),
              add_call (CallMkdir (crash_log_folder w)) w))
     ∨ (∃ w1, fs w1 !! crash_log_folder w = Some Dir
           ∧ (w1 = w ∨ (fs w !! crash_log_folder w = None
                        ∧ w1 = made (crash_log_folder w) w))
           ∧ crash_log_manager name flag w =
             log_use (crash_log_path w name) flag w1))
  ∧ ((∃ c, fs w !! crash_data_folder w = Some (File c)
           ∧ crash_data_manager name src w =
             (inl (FileExistsError (crash_data_folder w)),
              add_call (CallMkdir (crash_data_folder w)) w))
     ∨ (∃ w1, fs w1 !! crash_data_folder w = Some Dir
           ∧ (w1 = w ∨ (fs w !! crash_data_folder w = None
                        ∧ w1 = made (crash_data_folder w) w))
           ∧ crash_data_manager name src w =
             data_use src (crash_data_path w name) w1)).
Proof.
  pose proof (returned_paths name flag src w) as [Hlog Hdata].
  split.
  { destruct (crash_log_manager name flag w) as [[e|p] w']; [done|].
    rewrite Hlog. unfold crash_log_path, crash_log_folder.
    by rewrite !str_app_assoc. }
  split.
  { destruct (crash_data_manager name src w) as [[e|p] w']; [done|].
    rewrite Hdata. unfold crash_data_path, crash_data_folder.
    by rewrite !str_app_assoc. }
  split.
  - rewrite crash_log_manager_eq.
    destruct (fs w !! crash_log_folder w) as [[c|]|] eqn:Hdir.
    + left. by exists c.
    + right. exists w. by eauto.
    + right. exists (made (crash_log_folder w) w).
      split; [apply lookup_insert_eq|]. by eauto.
  - rewrite crash_data_manager_eq.
    destruct (fs w !! crash_data_folder w) as [[c|]|] eqn:Hdir.
    + left. by exists c.
    + right. exists w. by eauto.
    + right. exists (made (crash_data_folder w) w).
      split; [apply lookup_insert_eq|]. by eauto.
Qed.

(** C4, amended.  Take a regular file at [output_file_path], a path other
    than the derived crash-data path, the derived path not naming a
    directory.  After a call that returns, the returned value is the
    derived path, nothing is left at [output_file_path], the derived path
    holds a file with the content the source had, and every other path,
    the crash-data folder apart, names what it named before. *)
Theorem crash_data_moves name src w c p w' :
  fs w !! src = Some (File c) →
  src ≠ crash_data_path w name →
  fs w !! crash_data_path w name ≠ Some Dir →
  crash_data_manager name src w = (inr p, w') →
  p = crash_data_path w name
  ∧ fs w' !! src = None
  ∧ fs w' !! p = Some (File c)
  ∧ (∀ q, q ≠ src → q ≠ p → q ≠ crash_data_folder w →
          fs w' !! q = fs w !! q).
Proof.
  intros Hsrc Hne Hdst Hcall.
  pose proof (data_manager_room _ _ _ _ _ _ Hsrc Hne Hcall) as Hroom.
  destruct (data_manager_returned _ _ _ _ _ Hcall) as [-> Hfolder].
  rewrite (data_manager_result _ _ _ c Hfolder Hsrc Hne Hdst Hroom) in Hcall.
  injection Hcall as <-. simpl.
  split; [done|]. split; [|split].
  - rewrite lookup_insert_ne by done. apply lookup_delete_eq.
  - apply lookup_insert_eq.
  - intros q Hq1 Hq2 Hq3. rewrite lookup_insert_ne by done.
    rewrite lookup_delete_ne by done. by apply settled_other.
Qed.

(** C9.  Take a source path that names nothing, also once the folder is
    settled (so it is not the crash-data folder itself), and a folder path
    that does not name a file, so that the first step completes.  Then
    [crash_data_manager] raises the error of [shutil.move].  The file
    system is the given one, with only the folder added if it was missing:
    in particular the derived destination names what it named before.  The
    logger is untouched, and the history gains the folder creation, if
    any, followed by exactly one [shutil.move]. *)
Theorem crash_data_missing_source name src w :
  fs w !! src = None →
  src ≠ crash_data_folder w →
  (∀ c, fs w !! crash_data_folder w ≠ Some (File c)) →
  ∃ e w',
    crash_data_manager name src w = (inl e, w')
    ∧ (e = FileNotFoundError src ∨ ∃ q, e = ShutilError q)
    ∧ (fs w' = fs w
       ∨ (fs w !! crash_data_folder w = None
          ∧ fs w' = <[crash_data_folder w:=Dir]> (fs w)))
    ∧ fs w' !! crash_data_path w name = fs w !! crash_data_path w name
    ∧ root_handlers w' = root_handlers w
    ∧ (calls w' = calls w ++ [CallMove src (crash_data_path w name)]
       ∨ calls w' = calls w ++ [CallMkdir (crash_data_folder w);
                                CallMove src (crash_data_path w name)]).
Proof.
  intros Hsrc Hsf Hfolder. rewrite crash_data_manager_eq.
  destruct (fs w !! crash_data_folder w) as [[c0|]|] eqn:Hdir.
  - by destruct (Hfolder c0).
  - destruct (data_use_missing src (crash_data_path w name) w Hsrc)
      as (e & -> & He).
    exists e, (add_call (CallMove src (crash_data_path w name)) w).
    simpl. by eauto 10.
  - destruct (data_use_missing src (crash_data_path w name)
                (made (crash_data_folder w) w)) as (e & -> & He).
    { simpl. by rewrite lookup_insert_ne. }
    eexists e, _. split; [done|]. split; [done|]. simpl.
    split; [by right|]. split.
    { rewrite lookup_insert_ne; [done|].
      intros Heq. by destruct (data_path_not_folder w name). }
    split; [done|]. right. by rewrite <- (assoc_L (++)).
Qed.

(** C8.  Take a world in which the folder path does not name a file, the
    derived log path does not name a directory, and there is room for the
    log file: it is there already, or the platform takes the derived path
    as a path and the directory the file is to lie in is the folder itself
    (as it is for a base name without a path separator) or another
    directory that is there.  Nothing is asked of the exception in flight.
    Then [crash_log_manager] returns the derived log path.  The file there holds what it held before (nothing, if it
    was not there) followed by one line ["ERROR:root:" + message], where
    the message is the placeholder text when the flag is set and otherwise
    what [traceback.format_exc()] renders: the exception in flight, or
    ["NoneType: None"] and a line end when there is none.  The root logger
    is left with this file as its only target, no other path changes apart
    from the folder, and the history gains the folder creation, if any,
    then one [basicConfig] and one [logging.error]. *)
Theorem crash_log_one_record name flag w :
  (∀ c, fs w !! crash_log_folder w ≠ Some (File c)) →
  fs w !! crash_log_path w name ≠ Some Dir →
  has_room (crash_log_folder w) (crash_log_path w name) w →
  ∃ w' msg,
    crash_log_manager name flag w = (inr (crash_log_path w name), w')
    ∧ msg = (if flag then custom_message
             else match exc_info w with
                  | Some text => text
                  | None => "NoneType: None" +:+ nl
                  end)
    ∧ fs w' !! crash_log_path w name =
      Some (File (content_at w (crash_log_path w name)
                  +:+ "ERROR:root:" +:+ msg +:+ nl))
    ∧ root_handlers w' = [crash_log_path w name]
    ∧ (∀ q, q ≠ crash_log_path w name → q ≠ crash_log_folder w →
            fs w' !! q = fs w !! q)
    ∧ (calls w' = calls w ++ [CallBasicConfig (crash_log_path w name);
                              CallLogError msg]
       ∨ calls w' = calls w ++ [CallMkdir (crash_log_folder w);
                                CallBasicConfig (crash_log_path w name);
                                CallLogError msg]).
Proof.
  intros Hfolder Hpath Hroom.
  eexists _, (crash_message flag w).
  split; [by apply log_manager_result|]. simpl.
  split; [done|]. split; [by rewrite lookup_insert_eq|].
  split; [done|]. split.
  - intros q Hq1 Hq2. rewrite lookup_insert_ne by done.
    by apply settled_other.
  - destruct (settled_calls (crash_log_folder w) w) as [-> | ->].
    + by left.
    + right. by rewrite <- (assoc_L (++)).
Qed.

(** C7, amended.  Take two successive calls that return, for input names
    with different bases, the second made while any exception [e2] is in
    flight.  The two log paths differ.  After the first call its file holds
    what it held before followed by the first record; the second call
    leaves that file as it is, and its own file holds what it held before
    the two calls followed by the second record.  (So two files that were
    not there before hold one record each.)  The root logger writes to the
    first file after the first call and to the second alone after the
    second. *)
Theorem crash_logs_independent n1 f1 n2 f2 e2 w p1 w1 p2 w2 :
  before_first "."%char n1 ≠ before_first "."%char n2 →
  crash_log_manager n1 f1 w = (inr p1, w1) →
  crash_log_manager n2 f2 (with_exc e2 w1) = (inr p2, w2) →
  p1 ≠ p2
  ∧ fs w1 !! p1 =
    Some (File (content_at w p1
                +:+ format_record "ERROR" "root" (crash_message f1 w)))
  ∧ fs w2 !! p1 = fs w1 !! p1
  ∧ fs w2 !! p2 =
    Some (File (content_at w p2
                +:+ format_record "ERROR" "root"
                      (crash_message f2 (with_exc e2 w1))))
  ∧ root_handlers w1 = [p1]
  ∧ root_handlers w2 = [p2].
Proof.
  intros Hbase Hc1 Hc2.
  destruct (log_manager_returned _ _ _ _ _ Hc1) as (-> & Hf1 & Hd1 & Hr1).
  rewrite (log_manager_result n1 f1 w Hf1 Hd1 Hr1) in Hc1.
  injection Hc1 as <-.
  set (w1 := World _ _ _ _ _) in *.
  destruct (log_manager_returned _ _ _ _ _ Hc2) as (-> & Hf2 & Hd2 & Hr2).
  rewrite (log_manager_result n2 f2 (with_exc e2 w1) Hf2 Hd2 Hr2) in Hc2.
  injection Hc2 as <-.
  assert (Hfolder : crash_log_folder (with_exc e2 w1) = crash_log_folder w)
    by reflexivity.
  assert (Hpath : crash_log_path (with_exc e2 w1) n2 = crash_log_path w n2)
    by reflexivity.
  rewrite Hpath, Hfolder. clear Hf2 Hd2 Hr2 Hpath Hfolder.
  pose proof (log_path_not_folder w n1) as Hpf1.
  pose proof (log_path_not_folder w n2) as Hpf2.
  assert (Hne : crash_log_path w n1 ≠ crash_log_path w n2).
  { intros Heq. by apply Hbase, (log_path_inj w). }
  assert (Hold : content_at (with_exc e2 w1) (crash_log_path w n2)
                 = content_at w (crash_log_path w n2)).
  { unfold content_at; simpl. rewrite lookup_insert_ne by done.
    by rewrite settled_other. }
  simpl. split; [done|]. split; [by rewrite lookup_insert_eq|]. split.
  { rewrite lookup_insert_ne by done. rewrite settled_other by done.
    done. }
  split; [|done]. by rewrite lookup_insert_eq, Hold.
Qed.

(** C10.  Take two input names with the same base.  Two successive calls
    of [crash_log_manager] that return, return the same path, and the
    second appends its record to the file the first wrote.  Two successive
    calls of [crash_data_manager] that return, return the same path, and
    where the first left a file there and the second is handed another
    regular file, the path holds the second file's content afterwards. *)
Theorem base_name_collision n1 n2 w f1 f2 e2 pl1 wl1 pl2 wl2
    src1 src2 c1 c2 pd1 wd1 pd2 wd2 :
  before_first "."%char n1 = before_first "."%char n2 →
  crash_log_manager n1 f1 w = (inr pl1, wl1) →
  crash_log_manager n2 f2 (with_exc e2 wl1) = (inr pl2, wl2) →
  crash_data_manager n1 src1 w = (inr pd1, wd1) →
  fs wd1 !! pd1 = Some (File c1) →
  fs wd1 !! src2 = Some (File c2) →
  src2 ≠ pd1 →
  crash_data_manager n2 src2 wd1 = (inr pd2, wd2) →
  pl2 = pl1
  ∧ fs wl2 !! pl1 =
    Some (File (content_at wl1 pl1
                +:+ format_record "ERROR" "root"
                      (crash_message f2 (with_exc e2 wl1))))
  ∧ pd2 = pd1
  ∧ fs wd2 !! pd1 = Some (File c2).
Proof.
  intros Hbase Hl1 Hl2 Hd1 Hart Hsrc2 Hne Hd2.
  (* the two logs *)
  destruct (log_manager_returned _ _ _ _ _ Hl1) as (-> & Hf1 & Hp1 & Hr1).
  assert (Hcwd1 : cwd wl1 = cwd w).
  { rewrite (log_manager_result n1 f1 w Hf1 Hp1 Hr1) in Hl1.
    by injection Hl1 as <-. }
  destruct (log_manager_returned _ _ _ _ _ Hl2) as (-> & Hf2 & Hp2 & Hr2).
  rewrite (log_manager_result n2 f2 (with_exc e2 wl1) Hf2 Hp2 Hr2) in Hl2.
  injection Hl2 as <-.
  assert (Hlp : crash_log_path (with_exc e2 wl1) n2 = crash_log_path w n1).
  { unfold crash_log_path, crash_log_folder; simpl. by rewrite Hcwd1, Hbase. }
  rewrite Hlp. split; [done|]. split; [simpl; by rewrite lookup_insert_eq|].
  (* the two data files *)
  destruct (data_manager_returned _ _ _ _ _ Hd1) as [-> _].
  assert (Hcwd : cwd wd1 = cwd w).
  { rewrite crash_data_manager_eq in Hd1. unfold data_use, bind, ret in Hd1.
    pose proof (shutil_move_cwd src1 (crash_data_path w n1)) as Hmove.
    destruct (fs w !! crash_data_folder w) as [[c0|]|]; [done| |].
    - destruct (shutil_move src1 (crash_data_path w n1) w)
        as [[e|q] w0'] eqn:Hm; [done|]. apply Hmove in Hm. by simplify_eq.
    - destruct (shutil_move src1 (crash_data_path w n1)
                  (made (crash_data_folder w) w))
        as [[e|q] w0'] eqn:Hm; [done|]. apply Hmove in Hm. by simplify_eq. }
  assert (Hdp : crash_data_path wd1 n2 = crash_data_path w n1).
  { unfold crash_data_path, crash_data_folder. by rewrite Hcwd, Hbase. }
  destruct (data_manager_returned _ _ _ _ _ Hd2) as [-> Hfolder2].
  rewrite (data_manager_result n2 src2 wd1 c2 Hfolder2 Hsrc2) in Hd2.
  - injection Hd2 as <-. rewrite Hdp. split; [done|]. simpl.
    by rewrite lookup_insert_eq.
  - by rewrite Hdp.
  - rewrite Hdp, Hart. done.
  - left. rewrite Hdp, Hart. done.
Qed.

End managers.

(** *** The claims on example worlds *)

Lemma crash_data_moves_witness :
  let w := world_of {[ "C:\work\sample.txt" := File "abc" ]} None in
  let p := "C:\app\Crash Data\sample_CRASHDUMP.txt" in
  let w' := snd (crash_data_manager (H:=backslash_paths)
                   "sample.txt" "C:\work\sample.txt" w) in
  p = crash_data_path (H:=backslash_paths) w "sample.txt"
  ∧ fs w' !! "C:\work\sample.txt" = None
  ∧ fs w' !! p = Some (File "abc")
  ∧ (∀ q, q ≠ "C:\work\sample.txt" → q ≠ p →
          q ≠ crash_data_folder (H:=backslash_paths) w →
          fs w' !! q = fs w !! q).
Proof.
  intros w p w'.
  apply (crash_data_moves (P:=backslash_paths)
           "sample.txt" "C:\work\sample.txt" w "abc" p w').
  - vm_compute; reflexivity.
  - vm_compute; discriminate.
  - vm_compute; discriminate.
  - vm_compute; reflexivity.
Defined.

(** C4 as stated fails where the file handed over already lies at the
    derived path: with [C:\app\Crash Data\sample_CRASHDUMP.txt] present
    and passed as [output_file_path] for the name [sample.txt], the call
    returns and the file is still at [output_file_path]. *)
Lemma crash_data_moves_counterexample :
  ¬ (∀ (P : Platform) name src w c p w',
       fs w !! src = Some (File c) →
       crash_data_manager name src w = (inr p, w') →
       fs w' !! src = None
       ∧ fs w' !! p = Some (File c)
       ∧ p = crash_data_path w name).
Proof.
  intros Hclaim.
  set (dst := "C:\app\Crash Data\sample_CRASHDUMP.txt").
  set (w := world_of {[ "C:\app\Crash Data" := Dir; dst := File "abc" ]} None).
  destruct (Hclaim backslash_paths "sample.txt" dst w "abc" dst
              (snd (crash_data_manager (H:=backslash_paths) "sample.txt" dst w)))
    as [Hgone _].
  - vm_compute; reflexivity.
  - vm_compute; reflexivity.
  - vm_compute in Hgone. discriminate.
Qed.

Lemma crash_data_missing_source_witness :
  let w := world_of ∅ None in
  ∃ e w',
    crash_data_manager (H:=backslash_paths) "sample.txt" "C:\work\gone.txt" w
    = (inl e, w')
    ∧ (e = FileNotFoundError "C:\work\gone.txt" ∨ ∃ q, e = ShutilError q)
    ∧ (fs w' = fs w
       ∨ (fs w !! crash_data_folder (H:=backslash_paths) w = None
          ∧ fs w' = <[crash_data_folder (H:=backslash_paths) w:=Dir]> (fs w)))
    ∧ fs w' !! crash_data_path (H:=backslash_paths) w "sample.txt"
      = fs w !! crash_data_path (H:=backslash_paths) w "sample.txt"
    ∧ root_handlers w' = root_handlers w
    ∧ (calls w' = calls w ++ [CallMove "C:\work\gone.txt"
                   (crash_data_path (H:=backslash_paths) w "sample.txt")]
       ∨ calls w' = calls w ++
           [CallMkdir (crash_data_folder (H:=backslash_paths) w);
            CallMove "C:\work\gone.txt"
              (crash_data_path (H:=backslash_paths) w "sample.txt")]).
Proof.
  intros w.
  apply (crash_data_missing_source (P:=backslash_paths)
           "sample.txt" "C:\work\gone.txt" w).
  - vm_compute; reflexivity.
  - vm_compute; discriminate.
  - intros c. vm_compute; discriminate.
Defined.

Lemma crash_log_one_record_witness :
  let w := world_of ∅ None in
  let p := crash_log_path (H:=backslash_paths) w "data.bin" in
  ∃ w' msg,
    crash_log_manager (H:=backslash_paths) "data.bin" true w = (inr p, w')
    ∧ msg = custom_message
    ∧ fs w' !! p =
      Some (File (content_at w p +:+ "ERROR:root:" +:+ msg +:+ nl))
    ∧ root_handlers w' = [p]
    ∧ (∀ q, q ≠ p → q ≠ crash_log_folder (H:=backslash_paths) w →
            fs w' !! q = fs w !! q)
    ∧ (calls w' = calls w ++ [CallBasicConfig p; CallLogError msg]
       ∨ calls w' = calls w ++
           [CallMkdir (crash_log_folder (H:=backslash_paths) w);
            CallBasicConfig p; CallLogError msg]).
Proof.
  intros w p.
  apply (crash_log_one_record (P:=backslash_paths) "data.bin" true w).
  - intros c. vm_compute; discriminate.
  - vm_compute; discriminate.
  - right. split; [vm_compute; reflexivity|left; vm_compute; reflexivity].
Defined.

Lemma crash_logs_independent_witness :
  let w := world_of ∅ (Some "ZeroDivisionError: division by zero") in
  let p1 := "C:\app\Crash Logs\run_007_CRASHLOG.log" in
  let p2 := "C:\app\Crash Logs\data_CRASHLOG.log" in
  let w1 := snd (crash_log_manager (H:=backslash_paths) "run_007.txt" false w) in
  let w2 := snd (crash_log_manager (H:=backslash_paths) "data.bin" true
                   (with_exc None w1)) in
  p1 ≠ p2
  ∧ fs w1 !! p1 =
    Some (File (content_at w p1
                +:+ format_record "ERROR" "root" (crash_message false w)))
  ∧ fs w2 !! p1 = fs w1 !! p1
  ∧ fs w2 !! p2 =
    Some (File (content_at w p2
                +:+ format_record "ERROR" "root"
                      (crash_message true (with_exc None w1))))
  ∧ root_handlers w1 = [p1]
  ∧ root_handlers w2 = [p2].
Proof.
  intros w p1 p2 w1 w2.
  apply (crash_logs_independent (P:=backslash_paths)
           "run_007.txt" false "data.bin" true None w p1 w1 p2 w2).
  - vm_compute; discriminate.
  - vm_compute; reflexivity.
  - vm_compute; reflexivity.
Defined.

(** C7 as stated fails for two different names with one base: after
    [crash_log_manager("run.txt")] and then [crash_log_manager("run.bin")]
    the file the first call wrote has the second record appended. *)
Lemma crash_logs_independent_counterexample :
  ¬ (∀ (P : Platform) n1 f1 n2 f2 e2 w p1 w1 p2 w2,
       n1 ≠ n2 →
       crash_log_manager n1 f1 w = (inr p1, w1) →
       crash_log_manager n2 f2 (with_exc e2 w1) = (inr p2, w2) →
       fs w2 !! p1 = fs w1 !! p1).
Proof.
  intros Hclaim.
  set (w := world_of ∅ (Some "ZeroDivisionError: division by zero")).
  set (p := "C:\app\Crash Logs\run_CRASHLOG.log").
  set (w1 := snd (crash_log_manager (H:=backslash_paths) "run.txt" false w)).
  set (w2 := snd (crash_log_manager (H:=backslash_paths) "run.bin" true
                    (with_exc None w1))).
  assert (Hsame : fs w2 !! p = fs w1 !! p).
  { apply (Hclaim backslash_paths "run.txt" false "run.bin" true None w p w1 p w2).
    - discriminate.
    - vm_compute; reflexivity.
    - vm_compute; reflexivity. }
  vm_compute in Hsame. discriminate.
Qed.

Lemma base_name_collision_witness :
  let w := world_of {[ "C:\work\run.txt" := File "one";
                       "C:\work\run.bin" := File "two" ]} None in
  let pl := "C:\app\Crash Logs\run_CRASHLOG.log" in
  let pd := "C:\app\Crash Data\run_CRASHDUMP.txt" in
  let wl1 := snd (crash_log_manager (H:=backslash_paths) "run.txt" true w) in
  let wl2 := snd (crash_log_manager (H:=backslash_paths) "run.bin" true
                    (with_exc None wl1)) in
  let wd1 := snd (crash_data_manager (H:=backslash_paths)
                    "run.txt" "C:\work\run.txt" w) in
  let wd2 := snd (crash_data_manager (H:=backslash_paths)
                    "run.bin" "C:\work\run.bin" wd1) in
  pl = pl
  ∧ fs wl2 !! pl =
    Some (File (content_at wl1 pl
                +:+ format_record "ERROR" "root"
                      (crash_message true (with_exc None wl1))))
  ∧ pd = pd
  ∧ fs wd2 !! pd = Some (File "two").
Proof.
  intros w pl pd wl1 wl2 wd1 wd2.
  apply (base_name_collision (P:=backslash_paths)
           "run.txt" "run.bin" w true true None pl wl1 pl wl2
           "C:\work\run.txt" "C:\work\run.bin" "one" "two" pd wd1 pd wd2).
  - vm_compute; reflexivity.
  - vm_compute; reflexivity.
  - vm_compute; reflexivity.
  - vm_compute; reflexivity.
  - vm_compute; reflexivity.
  - vm_compute; reflexivity.
  - vm_compute; discriminate.
  - vm_compute; reflexivity.
Defined.

(** A base name that leads into a directory that is not there.  For the
    name [sub/run.txt] the log file would lie in [Crash Logs\sub]: the open
    of the handler raises, the folder has been made, and the root logger is
    left without handlers.  The move raises likewise and leaves the source
    where it is. *)
Lemma log_without_room_example :
  let w := world_of ∅ None in
  ∃ w', crash_log_manager (H:=backslash_paths) "sub/run.txt" true w
        = (inl (FileNotFoundError "C:\app\Crash Logs\sub/run_CRASHLOG.log"), w')
        ∧ root_handlers w' = []
        ∧ fs w' = {[ "C:\app\Crash Logs" := Dir ]}.
Proof. eexists. split; [vm_compute; reflexivity|]. by vm_compute. Qed.

Lemma move_without_room_example :
  let w := world_of {[ "C:\app\Crash Data" := Dir;
                       "C:\work\run.txt" := File "abc" ]} None in
  ∃ w', crash_data_manager (H:=backslash_paths)
          "sub/run.txt" "C:\work\run.txt" w
        = (inl (FileNotFoundError "C:\app\Crash Data\sub/run_CRASHDUMP.txt"), w')
        ∧ fs w' = fs w.
Proof. eexists. split; [vm_compute; reflexivity|]. by vm_compute. Qed.

End CrashOutputManagerProofs.

(* ===================================================================== *)
(** ** Properties of the threading-table reader                           *)
(* ===================================================================== *)

Module ThreadingTableProofs.
Import ThreadingTableDataWrangler.

(** *** The three loops *)

Lemma read_rows_ok n : ∀ i (tw sw ts ss : list string),
  i + n ≤ length tw → i + n ≤ length sw →
  read_rows n i tw sw ts ss
  = inr (ts ++ take n (drop i tw), ss ++ take n (drop i sw)).
Proof.
  induction n as [|n IH]; intros i tw sw ts ss Ht Hs; simpl.
  - by rewrite !take_0, !app_nil_r.
  - destruct (lookup_lt_is_Some_2 tw i) as [t Hti]; [lia|].
    destruct (lookup_lt_is_Some_2 sw i) as [s Hsi]; [lia|].
    rewrite Hti, Hsi, IH by lia.
    rewrite (drop_S tw t i Hti), (drop_S sw s i Hsi). simpl.
    by rewrite <- !(assoc_L (++)).
Qed.

Lemma read_rows_short n : ∀ i (tw sw ts ss : list string),
  i ≤ length tw → i ≤ length sw →
  length tw < i + n ∨ length sw < i + n →
  read_rows n i tw sw ts ss = inl IndexError.
Proof.
  induction n as [|n IH]; intros i tw sw ts ss Hi1 Hi2 Hshort; simpl.
  - lia.
  - destruct (tw !! i) as [t|] eqn:Hti; [|done].
    destruct (sw !! i) as [s|] eqn:Hsi; [|done].
    apply lookup_lt_Some in Hti, Hsi. apply IH; lia.
Qed.


Lemma trim_rows_spec fuel : ∀ ts ss : list string,
  length ts = length ss → 1 ≤ length ts → length ts ≤ fuel →
  ∃ r, trim_rows fuel ts ss = Some r ∧ trim_post ts ss r.
Proof.
  induction fuel as [|fuel IH]; intros ts ss Hlen Hpos Hfuel; [lia|].
  destruct (last ts) as [t|] eqn:Hlt.
  2:{ apply last_None in Hlt. subst. simpl in Hpos. lia. }
  destruct (last ss) as [s|] eqn:Hls.
  2:{ apply last_None in Hls. subst. simpl in *. lia. }
  apply last_Some in Hlt as [ts' ->]. apply last_Some in Hls as [ss' ->].
  rewrite !length_app in *. simpl in *.
  assert (Hlen' : length ts' = length ss') by lia.
  assert (Hlast_t : (ts' ++ [t]) !! (length ts' + 1 - 1) = Some t).
  { replace (length ts' + 1 - 1) with (length ts' + 0) by lia.
    by rewrite lookup_app_r, Nat.add_0_r, Nat.sub_diag by lia. }
  assert (Hlast_s : (ss' ++ [s]) !! (length ts' + 1 - 1) = Some s).
  { rewrite Hlen'. replace (length ss' + 1 - 1) with (length ss' + 0) by lia.
    by rewrite lookup_app_r, Nat.add_0_r, Nat.sub_diag by lia. }
  assert (Hwhole : Kept (ts' ++ [t]) (ss' ++ [s])
                   = Kept (take (length ts' + 1) (ts' ++ [t]))
                          (take (length ts' + 1) (ss' ++ [s]))).
  { by rewrite !take_ge by (rewrite length_app; simpl; lia). }
  rewrite !last_snoc.
  destruct (bool_decide_reflect (t = "")) as [->|Ht].
  2:{ eexists. split; [done|]. right. exists (length ts' + 1).
      rewrite length_app; simpl.
      split; [lia|]. split; [done|]. split; [|intros i; lia].
      intros [Hb _]. congruence. }
  destruct (bool_decide_reflect (s = "")) as [->|Hs].
  2:{ eexists. split; [done|]. right. exists (length ts' + 1).
      rewrite length_app; simpl.
      split; [lia|]. split; [done|]. split; [|intros i; lia].
      intros [_ Hb]. congruence. }
  rewrite !length_app; simpl.
  destruct ts' as [|t0 ts'].
  - destruct ss' as [|? ?]; [|done]. simpl.
    eexists. split; [done|]. left. split; [done|].
    intros [|i] Hi; [done|simpl in Hi; lia].
  - destruct ss' as [|s0 ss']; [done|].
    replace ((length (t0 :: ts') + 1 =? 1) && (length (s0 :: ss') + 1 =? 1))
      with false.
    2:{ simpl. by rewrite Nat.add_1_r. }
    rewrite !removelast_last.
    destruct (IH (t0 :: ts') (s0 :: ss')) as (r & -> & Hr);
      [done|simpl; lia|lia|].
    exists r. split; [done|].
    set (T := t0 :: ts') in *. set (S' := s0 :: ss') in *.
    assert (Hlk : ∀ i, i < length T →
              blank_row (T ++ [""]) (S' ++ [""]) i ↔ blank_row T S' i).
    { intros i Hi. unfold blank_row.
      by rewrite !lookup_app_l by lia. }
    assert (Hend : blank_row (T ++ [""]) (S' ++ [""]) (length T)).
    { split.
      - replace (length T) with (length T + 0) by lia.
        by rewrite lookup_app_r, Nat.add_0_r, Nat.sub_diag by lia.
      - rewrite Hlen'. replace (length S') with (length S' + 0) by lia.
        by rewrite lookup_app_r, Nat.add_0_r, Nat.sub_diag by lia. }
    assert (HT : 1 ≤ length T) by (simpl; lia).
    clearbody T S'. unfold trim_post. rewrite length_app.
    change (length [""]) with 1.
    destruct Hr as [[-> Hall]|(k & Hk & -> & Hnb & Hrest)].
    + left. split; [done|]. intros i Hi.
      destruct (decide (i = length T)) as [->|]; [done|].
      apply Hlk; [lia|]. apply Hall. lia.
    + right. exists k. split; [lia|]. split.
      { by rewrite !take_app_le by lia. }
      split.
      { rewrite Hlk by lia. done. }
      intros i Hi. destruct (decide (i = length T)) as [->|]; [done|].
      apply Hlk; [lia|]. apply Hrest. lia.
Qed.

Section wrangler.
Context `{Fl : Floats}.

Lemma check_times_in_range ss :
  check_times ss = InRange ↔ Forall time_ok ss.
Proof.
  induction ss as [|v ss IH]; simpl; [by split|].
  destruct (float_of_str v) as [x|] eqn:Hx.
  - destruct (le_60 x && ge_0 x) eqn:Hr; simpl.
    + rewrite IH. split.
      * intros Hall. constructor; [|done]. exists x.
        apply andb_true_iff in Hr as [? ?]. eauto.
      * by inversion 1.
    + split; [done|]. inversion 1 as [|?? (y & Hy & H60 & H0) ?]; subst.
      rewrite Hx in Hy. simplify_eq. by rewrite H60, H0 in Hr.
  - split; [done|]. inversion 1 as [|?? (y & Hy & _) ?]; subst. congruence.
Qed.

Lemma check_times_not_a_float ss v :
  check_times ss = NotAFloat v →
  ∃ before after, ss = before ++ v :: after
    ∧ float_of_str v = None ∧ Forall time_ok before.
Proof.
  induction ss as [|u ss IH]; simpl; [done|].
  destruct (float_of_str u) as [x|] eqn:Hx.
  - destruct (le_60 x && ge_0 x) eqn:Hr; simpl; [|done].
    intros (before & after & -> & Hv & Hb)%IH.
    exists (u :: before), after. split; [done|]. split; [done|].
    constructor; [|done]. exists x. apply andb_true_iff in Hr as [? ?]. eauto.
  - intros [= ->]. by exists [], ss.
Qed.

Lemma check_times_out_of_range ss :
  check_times ss = OutOfRange →
  ∃ before v after x, ss = before ++ v :: after
    ∧ float_of_str v = Some x ∧ le_60 x && ge_0 x = false
    ∧ Forall time_ok before.
Proof.
  induction ss as [|u ss IH]; simpl; [done|].
  destruct (float_of_str u) as [x|] eqn:Hx; [|done].
  destruct (le_60 x && ge_0 x) eqn:Hr; simpl.
  - intros (before & v & after & y & -> & Hv & Hy & Hb)%IH.
    exists (u :: before), v, after, y. split; [done|]. split; [done|].
    split; [done|]. constructor; [|done]. exists x.
    apply andb_true_iff in Hr as [? ?]. eauto.
  - intros _. by exists [], u, ss, x.
Qed.


Lemma blank_row_take (tw sw : list string) n i :
  i < n → blank_row (take n tw) (take n sw) i ↔ blank_row tw sw i.
Proof. intros Hi. unfold blank_row. by rewrite !lookup_take_lt. Qed.

Lemma wrangler_cases (tw sw : list string) :
  5 ≤ length tw → 5 ≤ length sw →
  ((∀ i, i < 5 → blank_row tw sw i)
   ∧ threading_table_data_wrangler tw sw = (TrueTrue, [empty_table_msg]))
  ∨ (∃ k, 1 ≤ k ≤ 5
       ∧ ¬ blank_row tw sw (k - 1)
       ∧ (∀ i, k ≤ i < 5 → blank_row tw sw i)
       ∧ threading_table_data_wrangler tw sw = finish (take k tw) (take k sw)).
Proof.
  intros Ht Hs. unfold threading_table_data_wrangler.
  rewrite read_rows_ok by (simpl; lia). rewrite !drop_0; simpl app.
  assert (Hl5 : length (take 5 tw) = 5) by (rewrite length_take; lia).
  assert (Hs5 : length (take 5 sw) = 5) by (rewrite length_take; lia).
  destruct (trim_rows_spec (S (length (take 5 tw))) (take 5 tw) (take 5 sw))
    as (r & -> & Hr); [lia..|].
  destruct Hr as [[-> Hall]|(k & Hk & -> & Hnb & Hrest)].
  - left. split; [|done]. intros i Hi. apply (blank_row_take tw sw 5); [done|].
    apply Hall. lia.
  - right. exists k. rewrite Hl5 in *. split; [done|]. split.
    { rewrite blank_row_take in Hnb by lia. done. }
    split.
    { intros i Hi. apply (blank_row_take tw sw 5); [lia|]. by apply Hrest. }
    rewrite !take_take, !Nat.min_l by lia. reflexivity.
Qed.


(** *** What the function hands back *)

Lemma msgs_distinct :
  empty_table_msg ≠ missing_data_msg
  ∧ empty_table_msg ≠ too_large_msg
  ∧ missing_data_msg ≠ too_large_msg.
Proof. repeat split; vm_compute; discriminate. Qed.

Lemma wrangler_short (tw sw : list string) :
  length tw < 5 ∨ length sw < 5 →
  threading_table_data_wrangler tw sw = (Raised IndexError, []).
Proof.
  intros Hshort. unfold threading_table_data_wrangler.
  by rewrite read_rows_short by (simpl; lia).
Qed.

Lemma finish_lists ts ss ts' ss' msgs :
  finish ts ss = (Lists ts' ss', msgs) →
  ts' = ts ∧ ss' = ss ∧ msgs = [] ∧ ("" ∉ ts) ∧ ("" ∉ ss) ∧ Forall time_ok ss.
Proof.
  unfold finish.
  destruct (bool_decide_reflect ("" ∈ ts)) as [|Ht]; simpl; [done|].
  destruct (bool_decide_reflect ("" ∈ ss)) as [|Hs]; simpl; [done|].
  destruct (check_times ss) eqn:Hc; [|done..].
  intros [= <- <- <-]. by apply check_times_in_range in Hc.
Qed.

Lemma finish_accepts ts ss :
  "" ∉ ts → "" ∉ ss → Forall time_ok ss → finish ts ss = (Lists ts ss, []).
Proof.
  intros Ht Hs Hok. unfold finish.
  rewrite !bool_decide_eq_false_2 by done; simpl.
  apply check_times_in_range in Hok. by rewrite Hok.
Qed.

(** [n] rows without an empty text cell, then blank rows only: the loops
    keep exactly these [n] rows. *)
Lemma filled_rows_finish (tw sw : list string) n :
  5 ≤ length tw → 5 ≤ length sw → 1 ≤ n ≤ 5 →
  "" ∉ take n tw →
  (∀ i, n ≤ i < 5 → blank_row tw sw i) →
  threading_table_data_wrangler tw sw = finish (take n tw) (take n sw).
Proof.
  intros Ht Hs Hn Hnt Hblank.
  assert (Hrow : ¬ blank_row tw sw (n - 1)).
  { intros [Hb _]. apply Hnt. apply list_elem_of_lookup. exists (n - 1).
    rewrite lookup_take_lt by lia. done. }
  destruct (wrangler_cases tw sw Ht Hs) as [[Hall _]|(k & Hk & Hnb & Hrest & ->)].
  { destruct Hrow. apply Hall. lia. }
  assert (k = n) as ->; [|done].
  destruct (decide (k < n)).
  - destruct Hrow. apply Hrest. lia.
  - destruct (decide (n < k)); [|lia]. destruct Hnb. apply Hblank. lia.
Qed.

(** X17.  What an accepted table is.  When the call hands back two lists, no
    status message was sent, and for some [n] from 1 to 5 the lists are the
    first [n] text cells and the first [n] time cells of the widgets: no
    cell among them is empty, every time converts to a number [x] with
    [60 >= x >= 0], and the rows from [n] to the fifth are blank in both
    columns. *)
Theorem wrangler_accepted tw sw ts ss msgs :
  threading_table_data_wrangler tw sw = (Lists ts ss, msgs) →
  msgs = []
  ∧ ∃ n, 1 ≤ n ≤ 5
      ∧ ts = take n tw ∧ ss = take n sw
      ∧ length ts = n ∧ length ss = n
      ∧ ("" ∉ ts) ∧ ("" ∉ ss)
      ∧ Forall time_ok ss
      ∧ ∀ i, n ≤ i < 5 → blank_row tw sw i.
Proof.
  intros Hcall.
  destruct (decide (5 ≤ length tw ∧ 5 ≤ length sw)) as [[Ht Hs]|Hshort].
  2:{ rewrite wrangler_short in Hcall by lia. done. }
  destruct (wrangler_cases tw sw Ht Hs) as [[_ He]|(k & Hk & _ & Hrest & He)];
    rewrite He in Hcall; [done|].
  apply finish_lists in Hcall as (-> & -> & -> & Hnt & Hns & Hok).
  split; [done|]. exists k. rewrite !length_take.
  split; [lia|]. split; [done|]. split; [done|]. split; [lia|].
  split; [lia|]. done.
Qed.

(** X18.  Which tables are accepted.  With five widgets in each column,
    [n] filled rows (no empty cell, every time converting to a number in
    the range) followed by blank rows only are handed back as they are,
    without a status message. *)
Theorem wrangler_accepts tw sw n :
  5 ≤ length tw → 5 ≤ length sw → 1 ≤ n ≤ 5 →
  "" ∉ take n tw → "" ∉ take n sw →
  Forall time_ok (take n sw) →
  (∀ i, n ≤ i < 5 → blank_row tw sw i) →
  threading_table_data_wrangler tw sw = (Lists (take n tw) (take n sw), []).
Proof.
  intros Ht Hs Hn Hnt Hns Hok Hblank.
  rewrite (filled_rows_finish tw sw n) by done.
  unfold finish. rewrite !bool_decide_eq_false_2 by done; simpl.
  apply check_times_in_range in Hok. by rewrite Hok.
Qed.

(** X19.  The empty table.  With five widgets in each column, the call
    reports "Empty Threading Table!" and hands back [(True, True)] exactly
    when all five rows are blank in both columns. *)
Theorem wrangler_empty_table tw sw :
  5 ≤ length tw → 5 ≤ length sw →
  threading_table_data_wrangler tw sw = (TrueTrue, [empty_table_msg])
  ↔ ∀ i, i < 5 → blank_row tw sw i.
Proof.
  intros Ht Hs. pose proof msgs_distinct as (Hem & Het & _).
  destruct (wrangler_cases tw sw Ht Hs) as [[Hall ->]|(k & Hk & Hnb & _ & ->)].
  { done. }
  split.
  - unfold finish.
    repeat match goal with
    | |- context [if ?b then _ else _] => destruct b; simpl
    | |- context [match check_times ?x with _ => _ end] =>
        destruct (check_times x); simpl
    end; intros [= ?]; congruence.
  - intros Hall. destruct Hnb. apply Hall. lia.
Qed.

Lemma empty_cell_in (l : list string) k :
  "" ∈ take k l ↔ ∃ i, i < k ∧ l !! i = Some "".
Proof.
  rewrite list_elem_of_lookup. split.
  - intros [i Hi]. exists i. apply lookup_take_Some in Hi as [? ?]. by split.
  - intros (i & Hi & Hl). exists i. by rewrite lookup_take_lt.
Qed.

(** X20.  Missing data.  With five widgets in each column, the call reports
    "Missing Threading Table data!" and hands back [(True, True)] exactly
    when some row has an empty cell and that row or a later one is not
    blank: a row filled in half, or a gap above a filled row.  Blank rows
    are forgiven at the end of the table only. *)
Theorem wrangler_missing_data tw sw :
  5 ≤ length tw → 5 ≤ length sw →
  threading_table_data_wrangler tw sw = (TrueTrue, [missing_data_msg])
  ↔ ∃ i j, i ≤ j < 5
       ∧ (tw !! i = Some "" ∨ sw !! i = Some "")
       ∧ ¬ blank_row tw sw j.
Proof.
  intros Ht Hs. pose proof msgs_distinct as (Hem & Het & Hmt).
  destruct (wrangler_cases tw sw Ht Hs) as [[Hall ->]|(k & Hk & Hnb & Hrest & ->)].
  { split; [intros [= ?]; congruence|].
    intros (i & j & Hj & _ & Hnbj). destruct Hnbj. apply Hall. lia. }
  unfold finish. split.
  - destruct (bool_decide_reflect ("" ∈ take k tw)) as [Hin|Hin]; simpl.
    { intros _. apply empty_cell_in in Hin as (i & Hi & Hl).
      exists i, (k - 1). split; [lia|]. by eauto. }
    destruct (bool_decide_reflect ("" ∈ take k sw)) as [Hin'|Hin']; simpl.
    { intros _. apply empty_cell_in in Hin' as (i & Hi & Hl).
      exists i, (k - 1). split; [lia|]. by eauto. }
    destruct (check_times (take k sw)); intros [= ?]; congruence.
  - intros (i & j & Hj & Hcell & Hnbj).
    assert (j < k).
    { destruct (decide (j < k)); [done|]. destruct Hnbj. apply Hrest. lia. }
    destruct Hcell as [Hc|Hc].
    + rewrite (bool_decide_eq_true_2 ("" ∈ take k tw)); [done|].
      apply empty_cell_in. exists i. split; [lia|done].
    + rewrite (bool_decide_eq_true_2 ("" ∈ take k sw)).
      * by rewrite orb_true_r.
      * apply empty_cell_in. exists i. split; [lia|done].
Qed.

(** X21.  The callback.  Whatever the widgets hold, [(True, True)] comes
    with exactly one status message, one of the three the function knows,
    and two lists or an exception come with none. *)
Theorem wrangler_callback tw sw :
  match threading_table_data_wrangler tw sw with
  | (TrueTrue, msgs) =>
      msgs = [empty_table_msg] ∨ msgs = [missing_data_msg]
      ∨ msgs = [too_large_msg]
  | (_, msgs) => msgs = []
  end.
Proof.
  unfold threading_table_data_wrangler.
  destruct (read_rows 5 0 tw sw [] []) as [e|[ts0 ss0]]; [done|].
  destruct (trim_rows _ ts0 ss0) as [[|ts ss|]|]; [by left| |done..].
  destruct (_ || _); [by (right; left)|].
  destruct (check_times ss); [done|by (right; right)|done].
Qed.

(** X22.  Too few widgets.  The call raises [IndexError] exactly when one
    of the two widget lists has fewer than five entries, and it has then
    sent no status message. *)
Theorem wrangler_index_error tw sw :
  ((threading_table_data_wrangler tw sw).1 = Raised IndexError
   ↔ length tw < 5 ∨ length sw < 5)
  ∧ ((threading_table_data_wrangler tw sw).1 = Raised IndexError →
     (threading_table_data_wrangler tw sw).2 = []).
Proof.
  assert (Hlong : (threading_table_data_wrangler tw sw).1 = Raised IndexError →
                  length tw < 5 ∨ length sw < 5).
  { intros Hcall.
    destruct (decide (5 ≤ length tw ∧ 5 ≤ length sw)) as [[Ht Hs]|]; [|lia].
    exfalso.
    destruct (wrangler_cases tw sw Ht Hs) as [[_ He]|(k & _ & _ & _ & He)];
      rewrite He in Hcall; [done|].
    unfold finish in Hcall.
    destruct (_ || _); [done|].
    by destruct (check_times (take k sw)). }
  split; [split; [done|]|].
  - intros Hshort. by rewrite wrangler_short.
  - intros Hcall. by rewrite wrangler_short by auto.
Qed.

(** X23.  Times that are not numbers.  When the call raises the
    [ValueError] of [float(v)], [v] is a time cell among the first five, it
    is not empty (empty cells are reported as missing data before any
    conversion), it does not convert, and every time above it converts to a
    number in the range. *)
Theorem wrangler_value_error tw sw v msgs :
  threading_table_data_wrangler tw sw = (Raised (ValueError v), msgs) →
  v ≠ "" ∧ float_of_str v = None
  ∧ ∃ i, i < 5 ∧ sw !! i = Some v
       ∧ ∀ j u, j < i → sw !! j = Some u → time_ok u.
Proof.
  intros Hcall.
  destruct (decide (5 ≤ length tw ∧ 5 ≤ length sw)) as [[Ht Hs]|Hshort].
  2:{ rewrite wrangler_short in Hcall by lia. done. }
  destruct (wrangler_cases tw sw Ht Hs) as [[_ He]|(k & Hk & _ & _ & He)];
    rewrite He in Hcall; [done|].
  unfold finish in Hcall.
  destruct (bool_decide_reflect ("" ∈ take k tw)) as [|_]; [done|].
  destruct (bool_decide_reflect ("" ∈ take k sw)) as [|Hin]; [done|].
  simpl in Hcall.
  destruct (check_times (take k sw)) eqn:Hc; try done.
  injection Hcall as -> _.
  apply check_times_not_a_float in Hc as (before & after & Hsplit & Hv & Hb).
  assert (Hat : take k sw !! length before = Some v).
  { rewrite Hsplit. by rewrite list_lookup_middle. }
  apply lookup_take_Some in Hat as [Hat Hlt].
  split.
  { intros ->. apply Hin. rewrite Hsplit.
    apply elem_of_app. right. apply list_elem_of_here. }
  split; [done|]. exists (length before). split; [lia|]. split; [done|].
  intros j u Hj Hu.
  assert (Hju : take k sw !! j = Some u) by (rewrite lookup_take_lt; [done|lia]).
  rewrite Hsplit, lookup_app_l in Hju by done.
  by apply (Forall_lookup_1 _ _ _ _ Hb Hju).
Qed.

(** X24.  Times out of range.  When the call reports that the time values
    are too large, some time cell among the first five is not empty and
    converts to a number [x] for which [60 >= x] or [x >= 0] fails, and
    every time above it is in the range. *)
Theorem wrangler_too_large tw sw :
  threading_table_data_wrangler tw sw = (TrueTrue, [too_large_msg]) →
  ∃ i v x, i < 5 ∧ sw !! i = Some v ∧ v ≠ ""
    ∧ float_of_str v = Some x ∧ (le_60 x = false ∨ ge_0 x = false)
    ∧ ∀ j u, j < i → sw !! j = Some u → time_ok u.
Proof.
  intros Hcall. pose proof msgs_distinct as (Hem & Het & Hmt).
  destruct (decide (5 ≤ length tw ∧ 5 ≤ length sw)) as [[Ht Hs]|Hshort].
  2:{ rewrite wrangler_short in Hcall by lia. done. }
  destruct (wrangler_cases tw sw Ht Hs) as [[_ He]|(k & Hk & _ & _ & He)];
    rewrite He in Hcall; [injection Hcall; congruence|].
  unfold finish in Hcall.
  destruct (bool_decide_reflect ("" ∈ take k tw)) as [|_];
    [injection Hcall; congruence|].
  destruct (bool_decide_reflect ("" ∈ take k sw)) as [|Hin];
    [injection Hcall; congruence|].
  simpl in Hcall.
  destruct (check_times (take k sw)) eqn:Hc; try done.
  apply check_times_out_of_range in Hc
    as (before & v & after & x & Hsplit & Hv & Hx & Hb).
  assert (Hat : take k sw !! length before = Some v).
  { rewrite Hsplit. by rewrite list_lookup_middle. }
  apply lookup_take_Some in Hat as [Hat Hlt].
  exists (length before), v, x. split; [lia|]. split; [done|]. split.
  { intros ->. apply Hin. rewrite Hsplit.
    apply elem_of_app. right. apply list_elem_of_here. }
  split; [done|]. split.
  { apply andb_false_iff in Hx. done. }
  intros j u Hj Hu.
  assert (Hju : take k sw !! j = Some u) by (rewrite lookup_take_lt; [done|lia]).
  rewrite Hsplit, lookup_app_l in Hju by done.
  by apply (Forall_lookup_1 _ _ _ _ Hb Hju).
Qed.

(** X25.  Only the first five widgets of each list are read: entries after
    the fifth never change the outcome. *)
Theorem wrangler_first_five tw sw :
  threading_table_data_wrangler tw sw
  = threading_table_data_wrangler (take 5 tw) (take 5 sw).
Proof.
  destruct (decide (5 ≤ length tw ∧ 5 ≤ length sw)) as [[Ht Hs]|Hshort].
  - unfold threading_table_data_wrangler.
    rewrite (read_rows_ok 5 0 tw sw) by (simpl; lia).
    rewrite (read_rows_ok 5 0 (take 5 tw) (take 5 sw))
      by (rewrite length_take; lia).
    rewrite !drop_0, !take_take. simpl app. reflexivity.
  - rewrite !wrangler_short; [done| |lia].
    rewrite !length_take. lia.
Qed.

(** X26.  Accepted lists are a fixed point: written back into a table of
    five rows, the rest left blank, they are accepted again and handed
    back unchanged. *)
Theorem wrangler_round_trip tw sw ts ss msgs :
  threading_table_data_wrangler tw sw = (Lists ts ss, msgs) →
  threading_table_data_wrangler (ts ++ replicate (5 - length ts) "")
                                (ss ++ replicate (5 - length ss) "")
  = (Lists ts ss, []).
Proof.
  intros Hcall.
  (* what the first call says about the lists *)
  assert (∃ n, 1 ≤ n ≤ 5 ∧ length ts = n ∧ length ss = n
               ∧ ("" ∉ ts) ∧ ("" ∉ ss) ∧ Forall time_ok ss)
    as (n & Hn & Hlt & Hls & Hnt & Hns & Hok).
  { destruct (decide (5 ≤ length tw ∧ 5 ≤ length sw)) as [[Ht Hs]|Hshort].
    2:{ rewrite wrangler_short in Hcall by lia. done. }
    destruct (wrangler_cases tw sw Ht Hs) as [[_ He]|(k & Hk & _ & _ & He)];
      rewrite He in Hcall; [done|].
    apply finish_lists in Hcall as (-> & -> & _ & ? & ? & ?).
    exists k. rewrite !length_take. repeat split; [lia..|done|done|done]. }
  (* the table they are written back into *)
  set (tw' := ts ++ replicate (5 - length ts) "").
  set (sw' := ss ++ replicate (5 - length ss) "").
  assert (Ht' : take n tw' = ts) by (unfold tw'; by rewrite take_app_length').
  assert (Hs' : take n sw' = ss) by (unfold sw'; by rewrite take_app_length').
  rewrite (filled_rows_finish tw' sw' n).
  - rewrite Ht', Hs'. by apply finish_accepts.
  - unfold tw'. rewrite length_app, length_replicate. lia.
  - unfold sw'. rewrite length_app, length_replicate. lia.
  - done.
  - by rewrite Ht'.
  - intros i Hi. unfold blank_row, tw', sw'.
    rewrite !lookup_app_r by lia.
    rewrite !lookup_replicate_2; [done|lia..].
Qed.

End wrangler.

(** *** The properties on example tables *)

Lemma wrangler_accepted_witness :
  let tw := ["a"; "b"; ""; ""; ""] in
  let sw := ["1"; "60"; ""; ""; ""] in
  ([] : list string) = []
  ∧ ∃ n, 1 ≤ n ≤ 5
      ∧ ["a"; "b"] = take n tw ∧ ["1"; "60"] = take n sw
      ∧ length ["a"; "b"] = n ∧ length ["1"; "60"] = n
      ∧ ("" ∉ ["a"; "b"]) ∧ ("" ∉ ["1"; "60"])
      ∧ Forall (time_ok (H:=digit_floats)) ["1"; "60"]
      ∧ ∀ i, n ≤ i < 5 → blank_row tw sw i.
Proof.
  intros tw sw.
  apply (wrangler_accepted (Fl:=digit_floats) tw sw ["a"; "b"] ["1"; "60"] []).
  vm_compute; reflexivity.
Defined.

Lemma wrangler_accepts_witness :
  threading_table_data_wrangler (H:=digit_floats)
    ["go"; "stop"; "x1"; ""; ""; "ignored"] ["0"; "7"; "60"; ""; ""]
  = (Lists ["go"; "stop"; "x1"] ["0"; "7"; "60"], []).
Proof.
  apply (wrangler_accepts (Fl:=digit_floats)
           ["go"; "stop"; "x1"; ""; ""; "ignored"] ["0"; "7"; "60"; ""; ""] 3).
  - simpl; lia.
  - simpl; lia.
  - lia.
  - simpl. intros Hin. repeat (apply elem_of_cons in Hin as [Hin|Hin]; [done|]).
    by apply elem_of_nil in Hin.
  - simpl. intros Hin. repeat (apply elem_of_cons in Hin as [Hin|Hin]; [done|]).
    by apply elem_of_nil in Hin.
  - simpl. repeat constructor; eexists; vm_compute; done.
  - intros i Hi. assert (i = 3 ∨ i = 4) as [-> | ->] by lia; by vm_compute.
Defined.

Lemma wrangler_empty_table_witness :
  threading_table_data_wrangler (H:=digit_floats)
    [""; ""; ""; ""; ""] [""; ""; ""; ""; ""]
  = (TrueTrue, [empty_table_msg])
  ↔ ∀ i, i < 5 → blank_row [""; ""; ""; ""; ""] [""; ""; ""; ""; ""] i.
Proof.
  apply (wrangler_empty_table (Fl:=digit_floats)); simpl; lia.
Defined.

Lemma wrangler_missing_data_witness :
  threading_table_data_wrangler (H:=digit_floats)
    ["a"; ""; "c"; ""; ""] ["1"; ""; "3"; ""; ""]
  = (TrueTrue, [missing_data_msg])
  ↔ ∃ i j, i ≤ j < 5
       ∧ (["a"; ""; "c"; ""; ""] !! i = Some ""
          ∨ ["1"; ""; "3"; ""; ""] !! i = Some "")
       ∧ ¬ blank_row ["a"; ""; "c"; ""; ""] ["1"; ""; "3"; ""; ""] j.
Proof.
  apply (wrangler_missing_data (Fl:=digit_floats)); simpl; lia.
Defined.

Lemma wrangler_value_error_witness :
  "1e" ≠ "" ∧ float_of_str (Floats:=digit_floats) "1e" = None
  ∧ ∃ i, i < 5 ∧ ["5"; "1e"; ""; ""; ""] !! i = Some "1e"
       ∧ ∀ j u, j < i → ["5"; "1e"; ""; ""; ""] !! j = Some u →
                time_ok (H:=digit_floats) u.
Proof.
  apply (wrangler_value_error (Fl:=digit_floats)
           ["a"; "b"; ""; ""; ""] ["5"; "1e"; ""; ""; ""] "1e" []).
  vm_compute; reflexivity.
Defined.

Lemma wrangler_too_large_witness :
  ∃ i v x, i < 5 ∧ ["5"; "61"; ""; ""; ""] !! i = Some v ∧ v ≠ ""
    ∧ float_of_str (Floats:=digit_floats) v = Some x
    ∧ (le_60 (Floats:=digit_floats) x = false
       ∨ ge_0 (Floats:=digit_floats) x = false)
    ∧ ∀ j u, j < i → ["5"; "61"; ""; ""; ""] !! j = Some u →
             time_ok (H:=digit_floats) u.
Proof.
  apply (wrangler_too_large (Fl:=digit_floats)
           ["a"; "b"; ""; ""; ""] ["5"; "61"; ""; ""; ""]).
  vm_compute; reflexivity.
Defined.

Lemma wrangler_round_trip_witness :
  threading_table_data_wrangler (H:=digit_floats)
    (["a"; "b"] ++ replicate (5 - length ["a"; "b"]) "")
    (["1"; "60"] ++ replicate (5 - length ["1"; "60"]) "")
  = (Lists ["a"; "b"] ["1"; "60"], []).
Proof.
  apply (wrangler_round_trip (Fl:=digit_floats)
           ["a"; "b"; ""; ""; ""; "z"] ["1"; "60"; ""; ""; ""] _ _ []).
  vm_compute; reflexivity.
Defined.

End ThreadingTableProofs.

(* ===================================================================== *)
(** ** More on the guard: how the two methods compose                     *)
(* ===================================================================== *)

Module MutexSerialMore.
Import MutexSerial MutexSerialProofs.

Lemma reachable_length n open0 s :
  reachable (init n open0) s → length (pcs s) = n.
Proof.
  induction 1 as [|s l s' _ IH Hstep].
  - apply length_replicate.
  - destruct Hstep; simpl in *; by rewrite length_insert.
Qed.

Lemma reachable_inv n open0 s :
  reachable (init n open0) s → inv (init n open0) s.
Proof. apply inv_reachable, inv_init. Qed.

Lemma others_outside n open0 s i p j q :
  reachable (init n open0) s →
  pcs s !! i = Some p → in_region p = true →
  j ≠ i → pcs s !! j = Some q → q = Outside.
Proof.
  intros Hr Hi Hp Hne Hj. destruct q; try done; destruct Hne;
    by apply (inv_single _ _ (reachable_inv _ _ _ Hr) j i _ p Hj Hi).
Qed.

Lemma all_outside_replicate (ps : list pc) :
  (∀ j q, ps !! j = Some q → q = Outside) → ps = replicate (length ps) Outside.
Proof.
  intros Hall. apply list_eq. intros j.
  destruct (ps !! j) as [q|] eqn:Hj.
  - rewrite (Hall _ _ Hj). symmetry. apply lookup_replicate_2.
    by eapply lookup_lt_Some.
  - symmetry. apply lookup_replicate_None. by apply lookup_ge_None.
Qed.

(** One step of the schedule runner, by the point the thread stands at. *)
Lemma exec_at (s : sys) i p : pcs s !! i = Some p → at_pc s i p = true.
Proof. intros Hi. unfold at_pc. by rewrite bool_decide_eq_true_2. Qed.

Lemma exec_at_ne (s : sys) i p q : pcs s !! i = Some p → p ≠ q → at_pc s i q = false.
Proof.
  intros Hi Hne. unfold at_pc. rewrite bool_decide_eq_false_2; [done|congruence].
Qed.

(** X1.  The block is not reentrant.  An [__enter__] that has returned
    leaves the port open and the lock locked, and any further [__enter__]
    on the same object, before an [__exit__], waits in
    [my_lock.acquire()], whatever the port would answer. *)
Theorem enter_not_reentrant granted g g1 :
  __enter__ granted g = Returned g1 →
  is_open g1 = true ∧ my_lock g1 = true
  ∧ ∀ granted', __enter__ granted' g1 = Blocked g1.
Proof.
  destruct g as [[] []], granted; intros He; vm_compute in He; simplify_eq;
    (split; [done|]; split; [done|]; by intros []).
Qed.

(** X4.  A free lock admits any thread.  In every reachable state with the
    lock free, all threads are outside their blocks and each of them can
    take [my_lock.acquire()], which puts it inside [__enter__] with the
    lock locked. *)
Theorem free_lock_admits n open0 s i :
  reachable (init n open0) s →
  my_lock (dev s) = false → i < n →
  all_outside s
  ∧ ∃ s', step s (i, Acquire) s'
          ∧ pcs s' !! i = Some Entering ∧ my_lock (dev s') = true.
Proof.
  intros Hr Hfree Hi.
  pose proof (reachable_inv _ _ _ Hr) as Hinv.
  assert (Hall : all_outside s).
  { intros j q Hj. destruct (in_region q) eqn:Hq; [|done].
    pose proof (inv_locked _ _ Hinv j q Hj Hq). congruence. }
  split; [done|].
  destruct (lookup_lt_is_Some_2 (pcs s) i) as [p Hp].
  { by rewrite (reachable_length _ _ _ Hr). }
  pose proof (Hall _ _ Hp) as Hout. destruct p; try done.
  destruct s as [[o l] ps]; simpl in *. subst l.
  eexists. split.
  - by apply step_acquire.
  - simpl. split; [|done]. by eapply lookup_upd_self.
Qed.

(** X5.  Nothing is kept between blocks.  In every reachable state, the
    [my_lock.release()] of [__exit__] leads to the very state of a guard
    that starts closed: all threads outside, port closed, lock free. *)
Theorem release_restores_initial n open0 s i s' :
  reachable (init n open0) s →
  step s (i, Release) s' →
  s' = init n false.
Proof.
  intros Hr Hstep.
  pose proof (reachable_inv _ _ _ Hr) as Hinv.
  pose proof (reachable_length _ _ _ Hr) as Hlen.
  inversion Hstep as [| | | | | |g ps i' g' Hi Hrel]; subst; simpl in *.
  pose proof (inv_closing _ _ Hinv i Hi) as Hc; simpl in Hc.
  unfold lock_release in Hrel. destruct (my_lock g); [|done]. simplify_eq.
  unfold init. rewrite Hc. f_equal.
  rewrite <- (length_insert ps i Outside). apply all_outside_replicate.
  intros j q Hj.
  destruct (lookup_upd _ _ _ _ _ _ Hi Hj) as [[-> ->]|[Hne Hj']]; [done|].
  by apply (others_outside _ _ _ i Closing j q Hr Hi eq_refl).
Qed.

(** X6.  A refused open ends everything.  From every reachable state, an
    [open()] that raises inside [__enter__] leaves all threads outside
    their blocks, the port closed and the lock locked, and from that state
    no thread can take any step any more. *)
Theorem refused_open_is_final n open0 s i s' :
  reachable (init n open0) s →
  step s (i, OpenFail) s' →
  all_outside s' ∧ my_lock (dev s') = true ∧ is_open (dev s') = false
  ∧ ∀ l s'', ¬ step s' l s''.
Proof.
  intros Hr Hstep.
  pose proof (reachable_inv _ _ _ Hr) as Hinv.
  inversion Hstep as [| | |g ps i' e Hi Hop Hdo| | |]; subst; simpl in *.
  pose proof (inv_locked _ _ Hinv i Entering Hi eq_refl) as Hl; simpl in Hl.
  assert (Hall : all_outside (Sys g (<[i:=Outside]> ps))).
  { intros j q Hj; simpl in Hj.
    destruct (lookup_upd _ _ _ _ _ _ Hi Hj) as [[-> ->]|[Hne Hj']]; [done|].
    by rewrite (others_outside _ _ _ i Entering j q Hr Hi eq_refl Hne Hj'). }
  split; [done|]. split; [done|]. split; [by apply negb_true_iff|].
  intros l s'' Hnext.
  inversion Hnext as
    [g0 ps0 j g1 Hj Hacq|g0 ps0 j Hj _|g0 ps0 j g1 Hj _ _|g0 ps0 j e0 Hj _ _
    |g0 ps0 j f b Hj|g0 ps0 j Hj|g0 ps0 j g1 Hj _]; subst;
    try (by specialize (Hall _ _ Hj)).
  unfold lock_acquire in Hacq. by rewrite Hl in Hacq.
Qed.

(** X2.  Inside the block the port is open.  In every state the threads
    can reach, a thread to which [__enter__] has returned finds the port
    open and the lock locked: no other thread closes the port under it. *)
Theorem holding_means_open n open0 s i :
  reachable (init n open0) s →
  pcs s !! i = Some Holding →
  is_open (dev s) = true ∧ my_lock (dev s) = true.
Proof.
  intros Hr Hi. split.
  2:{ by apply (inv_locked _ _ (reachable_inv _ _ _ Hr) i Holding). }
  revert i Hi. induction Hr as [|s l s' Hr IH Hstep]; intros i Hi.
  { apply lookup_replicate in Hi as [? _]. done. }
  assert (Hother : ∀ j p, pcs s !! j = Some p → in_region p = true →
            pcs s !! i = Some Holding → j = i).
  { intros j p Hj Hp Hi'.
    by apply (inv_single _ _ (reachable_inv _ _ _ Hr) j i p Holding). }
  destruct Hstep as
    [g ps j g' Hj Hacq | g ps j Hj Hop | g ps j g' Hj Hop Hdo
    | g ps j e Hj Hop Hdo | g ps j failed b Hj | g ps j Hj
    | g ps j g' Hj Hrel]; simpl in *;
    destruct (lookup_upd _ _ _ _ _ _ Hj Hi) as [[-> Heq]|[Hne Hi']];
    try done.
  - unfold lock_acquire in Hacq. destruct (my_lock g); simplify_eq.
    by apply (IH i).
  - by apply negb_false_iff in Hop.
  - by apply (IH i).
  - unfold dev_open in Hdo. apply negb_true_iff in Hop. rewrite Hop in Hdo.
    by simplify_eq.
  - destruct Hne. symmetry. by apply (Hother j Entering).
  - by apply (IH i).
  - destruct Hne. symmetry. by apply (Hother j Holding).
  - destruct Hne. symmetry. by apply (Hother j Exiting).
  - destruct Hne. symmetry. by apply (Hother j Closing).
Qed.

Lemma exec_close g (ps : list pc) i :
  ps !! i = Some Exiting →
  exec (i, Close) (Sys g ps) = Some (Sys (dev_close g) (<[i:=Closing]> ps)).
Proof. intros Hi. unfold exec. by rewrite (exec_at (Sys _ ps) i _ Hi). Qed.

Lemma exec_release (o : bool) (ps : list pc) i :
  ps !! i = Some Closing →
  exec (i, Release) (Sys (Guard o true) ps)
  = Some (Sys (Guard o false) (<[i:=Outside]> ps)).
Proof. intros Hi. unfold exec. by rewrite (exec_at (Sys _ ps) i _ Hi). Qed.

Lemma exec_body g (ps : list pc) i failed b :
  ps !! i = Some Holding →
  exec (i, Body failed b) (Sys g ps)
  = Some (Sys (Guard b (my_lock g)) (<[i:=Exiting]> ps)).
Proof. intros Hi. unfold exec. by rewrite (exec_at (Sys _ ps) i _ Hi). Qed.

Lemma exec_open (l : bool) (ps : list pc) i (o : bool) :
  ps !! i = Some Entering →
  exec (i, if o then OpenSkip else OpenOk) (Sys (Guard o l) ps)
  = Some (Sys (Guard true l) (<[i:=Holding]> ps)).
Proof.
  intros Hi. destruct o; unfold exec; by rewrite (exec_at (Sys _ ps) i _ Hi).
Qed.

(** X3.  The thread in the region is never stuck.  From every reachable
    state in which a thread has passed [my_lock.acquire()], that thread
    alone, given that the port opens, comes out of its block in at most
    four of its own steps, and leaves every thread outside, the port
    closed and the lock free. *)
Theorem holder_finishes n open0 s i p :
  reachable (init n open0) s →
  pcs s !! i = Some p → in_region p = true →
  ∃ sched,
    length sched ≤ 4
    ∧ Forall (λ l, l.1 = i) sched
    ∧ run sched s = Some (init n false).
Proof.
  intros Hr Hi Hp.
  pose proof (reachable_inv _ _ _ Hr) as Hinv.
  pose proof (inv_locked _ _ Hinv i p Hi Hp) as Hl.
  pose proof (reachable_length _ _ _ Hr) as Hlen.
  destruct s as [[o l] ps]; simpl in *. subst l.
  assert (Hfin : ∀ (ps' : list pc),
            ps' !! i = Some Closing → <[i:=Outside]> ps' = <[i:=Outside]> ps →
            run [(i, Release)] (Sys (Guard false true) ps')
            = Some (init n false)).
  { intros ps' Hi' Heq. cbn [run]. rewrite (exec_release _ _ _ Hi'). rewrite Heq.
    unfold init. do 2 f_equal.
    rewrite <- Hlen, <- (length_insert ps i Outside).
    apply all_outside_replicate. intros j q Hj.
    destruct (lookup_upd _ _ _ _ _ _ Hi Hj) as [[-> ->]|[Hne Hj']]; [done|].
    by apply (others_outside _ _ _ i p j q Hr Hi Hp). }
  assert (Hself : ∀ q q' (ps' : list pc),
            ps' !! i = Some q → <[i:=q']> ps' !! i = Some q').
  { intros q q' ps' Hq. by eapply lookup_upd_self. }
  destruct p; [done| | | |].
  - exists [(i, if o then OpenSkip else OpenOk); (i, Body false false);
            (i, Close); (i, Release)].
    split; [simpl; lia|]. split; [by repeat constructor|].
    cbn [run]. rewrite (exec_open _ _ _ _ Hi).
    rewrite (exec_body _ _ _ _ _ (Hself _ Holding _ Hi)).
    rewrite exec_close by (by eapply Hself, Hself).
    apply Hfin.
    + by eapply Hself, Hself, Hself.
    + by rewrite !list_insert_insert_eq.
  - exists [(i, Body false false); (i, Close); (i, Release)].
    split; [simpl; lia|]. split; [by repeat constructor|].
    cbn [run]. rewrite (exec_body _ _ _ _ _ Hi).
    rewrite exec_close by (by eapply Hself).
    apply Hfin.
    + by eapply Hself, Hself.
    + by rewrite !list_insert_insert_eq.
  - exists [(i, Close); (i, Release)].
    split; [simpl; lia|]. split; [by repeat constructor|].
    cbn [run]. rewrite (exec_close _ _ _ Hi).
    apply Hfin.
    + by eapply Hself.
    + by rewrite !list_insert_insert_eq.
  - exists [(i, Release)].
    split; [simpl; lia|]. split; [by repeat constructor|].
    pose proof (inv_closing _ _ Hinv i Hi) as Hc; simpl in Hc. subst o.
    by apply Hfin.
Qed.

Lemma entering_open_is_first n open0 s i :
  reachable (init n open0) s →
  pcs s !! i = Some Entering → is_open (dev s) = true →
  open0 = true
  ∧ s = Sys (Guard true true) (<[i:=Entering]> (replicate n Outside)).
Proof.
  intros Hr. revert i. induction Hr as [|s l s' Hr IH Hstep]; intros i Hi Ho.
  { apply lookup_replicate in Hi as [? _]. done. }
  pose proof (reachable_inv _ _ _ Hr) as Hinv.
  pose proof (reachable_length _ _ _ Hr) as Hlen.
  assert (Hother : ∀ j p, pcs s !! j = Some p → in_region p = true →
            pcs s !! i = Some Entering → j = i).
  { intros j p Hj Hp Hi'. by apply (inv_single _ _ Hinv j i p Entering). }
  destruct Hstep as
    [g ps j g' Hj Hacq | g ps j Hj Hop | g ps j g' Hj Hop Hdo
    | g ps j e Hj Hop Hdo | g ps j failed b Hj | g ps j Hj
    | g ps j g' Hj Hrel]; simpl in *;
    destruct (lookup_upd _ _ _ _ _ _ Hj Hi) as [[-> Heq]|[Hne Hi']];
    try done;
    try (destruct Hne; symmetry; by eapply Hother).
  - (* the acquire of thread i itself *)
    unfold lock_acquire in Hacq. destruct g as [o l]; simpl in *.
    destruct l; [done|]. injection Hacq as <-. simpl in Ho. subst o.
    assert (Hall : all_outside (Sys (Guard true false) ps)).
    { intros k q Hk. destruct (in_region q) eqn:Hq; [|done].
      by pose proof (inv_locked _ _ Hinv k q Hk Hq). }
    destruct (inv_idle _ _ Hinv Hall) as [Hinit|Hclosed]; [|done].
    unfold init in Hinit. injection Hinit as <- Hps. by rewrite Hps.
  - (* another thread acquires while i is in the region: impossible *)
    pose proof (inv_locked _ _ Hinv i Entering Hi' eq_refl) as Hl.
    unfold lock_acquire in Hacq. simpl in Hl. by rewrite Hl in Hacq.
Qed.

(** X7.  The port is found open at entry only once.  In every run of the
    threads, an [__enter__] skips [open()] only on a guard that started
    open, and only in the block entered first, straight from the initial
    state; every other block opens the port itself. *)
Theorem open_found_only_at_first_entry n open0 s i s' :
  reachable (init n open0) s →
  step s (i, OpenSkip) s' →
  open0 = true ∧ step (init n true) (i, Acquire) s.
Proof.
  intros Hr Hstep.
  inversion Hstep as [|g ps i' Hi Hop| | | | |]; subst.
  apply negb_false_iff in Hop.
  destruct (entering_open_is_first _ _ _ i Hr Hi Hop) as [-> Hs].
  split; [done|]. rewrite Hs. apply step_acquire; [|done].
  apply lookup_replicate_2.
  pose proof (reachable_length _ _ _ Hr) as Hlen. simpl in Hlen.
  apply lookup_lt_Some in Hi. lia.
Qed.

(** *** The properties on example runs *)

Lemma enter_not_reentrant_witness :
  is_open (Guard true true) = true ∧ my_lock (Guard true true) = true
  ∧ ∀ granted', __enter__ granted' (Guard true true) = Blocked (Guard true true).
Proof.
  apply (enter_not_reentrant true (Guard false false) (Guard true true)).
  reflexivity.
Defined.

Lemma holding_means_open_witness :
  is_open (Guard true true) = true ∧ my_lock (Guard true true) = true.
Proof.
  apply (holding_means_open 2 false (Sys (Guard true true) [Holding; Outside]) 0).
  - apply (run_reachable [(0, Acquire); (0, OpenOk)]). reflexivity.
  - reflexivity.
Defined.

Lemma holder_finishes_witness :
  ∃ sched,
    length sched ≤ 4
    ∧ Forall (λ l, l.1 = 1) sched
    ∧ run sched (Sys (Guard true true) [Outside; Exiting; Outside])
      = Some (init 3 false).
Proof.
  apply (holder_finishes 3 true _ 1 Exiting).
  - apply (run_reachable [(1, Acquire); (1, OpenSkip); (1, Body true true)]).
    reflexivity.
  - reflexivity.
  - reflexivity.
Defined.

Lemma free_lock_admits_witness :
  all_outside (init 3 true)
  ∧ ∃ s', step (init 3 true) (2, Acquire) s'
          ∧ pcs s' !! 2 = Some Entering ∧ my_lock (dev s') = true.
Proof.
  apply (free_lock_admits 3 true (init 3 true) 2).
  - constructor.
  - reflexivity.
  - lia.
Defined.

Lemma release_restores_initial_witness :
  Sys (Guard false false) [Outside; Outside] = init 2 false.
Proof.
  apply (release_restores_initial 2 true
           (Sys (Guard false true) [Closing; Outside]) 0).
  - apply (run_reachable
             [(0, Acquire); (0, OpenSkip); (0, Body false true); (0, Close)]).
    reflexivity.
  - apply exec_sound. reflexivity.
Defined.

Lemma refused_open_is_final_witness :
  all_outside (Sys (Guard false true) [Outside; Outside])
  ∧ my_lock (dev (Sys (Guard false true) [Outside; Outside])) = true
  ∧ is_open (dev (Sys (Guard false true) [Outside; Outside])) = false
  ∧ ∀ l s'', ¬ step (Sys (Guard false true) [Outside; Outside]) l s''.
Proof.
  apply (refused_open_is_final 2 false
           (Sys (Guard false true) [Outside; Entering]) 1).
  - apply (run_reachable [(1, Acquire)]). reflexivity.
  - apply exec_sound. reflexivity.
Defined.

Lemma open_found_only_at_first_entry_witness :
  true = true
  ∧ step (init 2 true) (0, Acquire) (Sys (Guard true true) [Entering; Outside]).
Proof.
  apply (open_found_only_at_first_entry 2 true
           (Sys (Guard true true) [Entering; Outside]) 0
           (Sys (Guard true true) [Holding; Outside])).
  - apply (run_reachable [(0, Acquire)]). reflexivity.
  - apply exec_sound. reflexivity.
Defined.

End MutexSerialMore.

(* ===================================================================== *)
(** ** More on the crash-artifact manager                                 *)
(* ===================================================================== *)

Module CrashOutputManagerMore.
Import CrashOutputManager CrashOutputManagerProofs.

Lemma str_split_nonempty c s : str_split c s ≠ [].
Proof. destruct (str_split_first c s) as [rest ->]. done. Qed.

(** X8.  [split] loses nothing.  For every string and separator character,
    joining the pieces of [s.split(c)] with [c] gives [s] back; no piece
    holds [c]; and there is one piece more than [s] holds occurrences of
    [c].  (So the base name a manager takes is the first of these pieces.) *)
Theorem split_join c s :
  str_join (String c "") (str_split c s) = s
  ∧ Forall (λ piece, str_mem c piece = false) (str_split c s)
  ∧ length (str_split c s) = S (str_count c s).
Proof.
  induction s as [|a s (IHj & IHf & IHl)]; simpl; [by repeat constructor|].
  destruct (decide (a = c)) as [->|Hne].
  - split; [|split].
    + destruct (str_split c s) as [|p rest] eqn:Hs;
        [by destruct (str_split_nonempty c s)|].
      change (str_join (String c "") ("" :: p :: rest))
        with ("" +:+ String c "" +:+ str_join (String c "") (p :: rest)).
      by rewrite IHj.
    + by constructor.
    + simpl. by rewrite IHl.
  - destruct (str_split c s) as [|p rest] eqn:Hs;
      [by destruct (str_split_nonempty c s)|].
    split; [|split].
    + rewrite <- IHj. destruct rest; [done|].
      change (str_join (String c "") (String a p :: s0 :: rest))
        with (String a p +:+ String c "" +:+ str_join (String c "") (s0 :: rest)).
      reflexivity.
    + inversion IHf; subst. constructor; [|done]. simpl.
      by rewrite bool_decide_eq_false_2.
    + simpl in *. done.
Qed.

Section more_managers.
Context `{P : Platform}.

Lemma data_path_inj w n1 n2 :
  crash_data_path w n1 = crash_data_path w n2 →
  before_first "."%char n1 = before_first "."%char n2.
Proof.
  unfold crash_data_path. intros Heq.
  apply (inj (String.app _)), (inj (String.app _)) in Heq.
  by apply str_app_inj_tail in Heq.
Qed.

(** The log side and the data side never name the same path. *)
Lemma log_data_apart w n1 n2 :
  crash_log_path w n1 ≠ crash_data_path w n2
  ∧ crash_log_path w n1 ≠ crash_data_folder w
  ∧ crash_data_path w n2 ≠ crash_log_folder w
  ∧ crash_log_folder w ≠ crash_data_folder w.
Proof.
  unfold crash_log_path, crash_data_path, crash_log_folder, crash_data_folder.
  repeat split.
  - rewrite !str_app_assoc. intros Heq.
    apply (inj (String.app _)) in Heq. vm_compute in Heq. discriminate.
  - rewrite !str_app_assoc. intros Heq.
    apply (inj (String.app _)) in Heq. vm_compute in Heq. discriminate.
  - rewrite !str_app_assoc. intros Heq.
    apply (inj (String.app _)) in Heq. vm_compute in Heq. discriminate.
  - intros Heq.
    apply (inj (String.app _)) in Heq. vm_compute in Heq. discriminate.
Qed.

(** X9.  Logs and data never meet.  In every world and for all input
    names, a crash-log path is never a crash-data path, neither path is the
    other method's folder, the two folders differ, and within one method
    two names get the same path exactly when their bases are equal. *)
Theorem artifacts_never_collide w n1 n2 :
  crash_log_path w n1 ≠ crash_data_path w n2
  ∧ crash_log_path w n1 ≠ crash_data_folder w
  ∧ crash_data_path w n2 ≠ crash_log_folder w
  ∧ crash_log_folder w ≠ crash_data_folder w
  ∧ (crash_log_path w n1 = crash_log_path w n2
     ↔ before_first "."%char n1 = before_first "."%char n2)
  ∧ (crash_data_path w n1 = crash_data_path w n2
     ↔ before_first "."%char n1 = before_first "."%char n2).
Proof.
  destruct (log_data_apart w n1 n2) as (Hld & Hldf & Hdlf & Hff).
  repeat split; try done.
  - apply log_path_inj.
  - intros Heq. unfold crash_log_path. by rewrite Heq.
  - apply data_path_inj.
  - intros Heq. unfold crash_data_path. by rewrite Heq.
Qed.


Lemma str_app_nil_r (s : string) : s +:+ "" = s.
Proof. induction s as [|a s IH]; [done|]. by rewrite str_app_cons, IH. Qed.

(** The file system a returning [crash_log_manager] leaves, path by path. *)
Lemma log_manager_fs name flag w p w' q :
  crash_log_manager name flag w = (inr p, w') →
  fs w' !! q =
  if decide (q = crash_log_path w name)
  then Some (File (content_at w (crash_log_path w name)
                   +:+ format_record "ERROR" "root" (crash_message flag w)))
  else if decide (q = crash_log_folder w) then Some Dir
  else fs w !! q.
Proof.
  intros Hcall.
  destruct (log_manager_returned _ _ _ _ _ Hcall) as (-> & Hf & Hd & Hr).
  rewrite (log_manager_result name flag w Hf Hd Hr) in Hcall.
  injection Hcall as <-. simpl.
  case_decide; subst; [by rewrite lookup_insert_eq|].
  rewrite lookup_insert_ne by done. by apply settled_lookup.
Qed.

(** The file system a [crash_data_manager] leaves that was handed a
    regular file, path by path. *)
Lemma data_manager_fs name src w c p w' q :
  fs w !! src = Some (File c) →
  src ≠ crash_data_path w name →
  fs w !! crash_data_path w name ≠ Some Dir →
  crash_data_manager name src w = (inr p, w') →
  fs w' !! q =
  if decide (q = crash_data_path w name) then Some (File c)
  else if decide (q = src) then None
  else if decide (q = crash_data_folder w) then Some Dir
  else fs w !! q.
Proof.
  intros Hsrc Hne Hnd Hcall.
  pose proof (data_manager_room _ _ _ _ _ _ Hsrc Hne Hcall) as Hr.
  destruct (data_manager_returned _ _ _ _ _ Hcall) as [-> Hf].
  rewrite (data_manager_result name src w c Hf Hsrc Hne Hnd Hr) in Hcall.
  injection Hcall as <-. simpl.
  case_decide; subst; [by rewrite lookup_insert_eq|].
  rewrite lookup_insert_ne by done.
  case_decide; subst; [by rewrite lookup_delete_eq|].
  rewrite lookup_delete_ne by done. by apply settled_lookup.
Qed.

(** X10.  Where both orders of the two methods return, they agree.  Take a
    regular output file that is neither the derived log path nor the
    derived data path, the latter not naming a directory.  If
    [crash_log_manager] and then [crash_data_manager] return, and the two
    called in the other order return as well, then both orders return the
    same two paths and leave the same file system and the same logging
    target.  (That one order returns does not make the other return: with
    the output file lying at the log folder's path, only the order that
    moves it away first does.) *)
Theorem managers_commute name1 flag name2 src c w pl wl wld pd wd wdl pl' pd' :
  fs w !! src = Some (File c) →
  src ≠ crash_data_path w name2 →
  src ≠ crash_log_path w name1 →
  fs w !! crash_data_path w name2 ≠ Some Dir →
  crash_log_manager name1 flag w = (inr pl, wl) →
  crash_data_manager name2 src wl = (inr pd, wld) →
  crash_data_manager name2 src w = (inr pd', wd) →
  crash_log_manager name1 flag wd = (inr pl', wdl) →
  pl' = pl ∧ pd' = pd
  ∧ fs wdl = fs wld
  ∧ root_handlers wdl = root_handlers wld.
Proof.
  intros Hsrc Hsd Hsl Hnd Hl1 Hd1 Hd2 Hl2.
  destruct (log_data_apart w name1 name2) as (Hld & Hldf & Hdlf & Hff).
  (* the four worlds agree on the working directory *)
  destruct (log_manager_returned _ _ _ _ _ Hl1) as (-> & Hlf & Hlp & Hlr).
  pose proof (data_manager_room _ _ _ _ _ _ Hsrc Hsd Hd2) as Hdr.
  destruct (data_manager_returned _ _ _ _ _ Hd2) as [-> Hdf].
  assert (Hcwd_l : cwd wl = cwd w).
  { rewrite (log_manager_result name1 flag w Hlf Hlp Hlr) in Hl1.
    by injection Hl1 as <-. }
  assert (Hwd : wd = set_fs (<[crash_data_path w name2 := File c]>
                   (delete src (fs (settled (crash_data_folder w) w))))
                   (add_call (CallMove src (crash_data_path w name2))
                      (settled (crash_data_folder w) w))).
  { rewrite (data_manager_result name2 src w c Hdf Hsrc Hsd Hnd Hdr) in Hd2.
    by injection Hd2 as <-. }
  assert (Hcwd_d : cwd wd = cwd w).
  { rewrite Hwd. unfold settled. by destruct (bool_decide _). }
  assert (Hexc_d : exc_info wd = exc_info w).
  { rewrite Hwd. unfold settled. by destruct (bool_decide _). }
  assert (Hh_d : root_handlers wd = root_handlers w).
  { rewrite Hwd. unfold settled. by destruct (bool_decide _). }
  assert (Hpl : ∀ n, crash_log_path wd n = crash_log_path w n).
  { intros n. unfold crash_log_path, crash_log_folder. by rewrite Hcwd_d. }
  assert (Hlfd : crash_log_folder wd = crash_log_folder w).
  { unfold crash_log_folder. by rewrite Hcwd_d. }
  assert (Hpd : ∀ n, crash_data_path wl n = crash_data_path w n).
  { intros n. unfold crash_data_path, crash_data_folder. by rewrite Hcwd_l. }
  assert (Hdfl : crash_data_folder wl = crash_data_folder w).
  { unfold crash_data_folder. by rewrite Hcwd_l. }
  destruct (log_manager_returned _ _ _ _ _ Hl2) as (-> & Hlf2 & Hlp2 & Hlr2).
  assert (Hsrc_lf : src ≠ crash_log_folder w).
  { intros ->. by destruct (Hlf c). }
  assert (Hsrc_l : fs wl !! src = Some (File c)).
  { rewrite (log_manager_fs _ _ _ _ _ src Hl1).
    by rewrite !decide_False. }
  assert (Hsd_l : src ≠ crash_data_path wl name2) by (by rewrite Hpd).
  pose proof (data_manager_room _ _ _ _ _ _ Hsrc_l Hsd_l Hd1) as Hdr1.
  destruct (data_manager_returned _ _ _ _ _ Hd1) as [-> Hdf1].
  rewrite Hpl, Hpd. split; [done|]. split; [done|].
  assert (Hsrc_df : src ≠ crash_data_folder w).
  { intros ->. by destruct (Hdf c). }
  (* the destination as the first call leaves it *)
  assert (Hnd_l : fs wl !! crash_data_path wl name2 ≠ Some Dir).
  { rewrite Hpd, (log_manager_fs _ _ _ _ _ _ Hl1).
    rewrite !decide_False; [done|done|]. by intros ?. }
  split.
  - apply map_eq. intros q.
    rewrite (log_manager_fs _ _ _ _ _ q Hl2).
    rewrite (data_manager_fs _ _ _ c _ _ q Hsrc_l Hsd_l Hnd_l Hd1).
    rewrite (data_manager_fs _ _ _ c _ _ q Hsrc Hsd Hnd Hd2).
    rewrite (log_manager_fs _ _ _ _ _ q Hl1).
    rewrite Hpl, Hlfd, Hpd, Hdfl.
    assert (Hcontent : content_at wd (crash_log_path w name1)
                       = content_at w (crash_log_path w name1)).
    { unfold content_at.
      rewrite (data_manager_fs _ _ _ c _ _ (crash_log_path w name1)
                 Hsrc Hsd Hnd Hd2).
      rewrite !decide_False; [done| |done..].
      apply log_path_not_folder || (intros ?; by destruct Hldf). }
    assert (Hmsg : crash_message flag wd = crash_message flag w).
    { unfold crash_message. by rewrite Hexc_d. }
    rewrite Hcontent, Hmsg.
    repeat case_decide; subst; try done.
  - rewrite (log_manager_result name1 flag wd Hlf2 Hlp2 Hlr2) in Hl2.
    injection Hl2 as <-. simpl.
    rewrite (data_manager_result name2 src wl c Hdf1 Hsrc_l Hsd_l Hnd_l Hdr1)
      in Hd1.
    injection Hd1 as <-. simpl.
    rewrite Hpl.
    rewrite (log_manager_result name1 flag w Hlf Hlp Hlr) in Hl1.
    injection Hl1 as <-. unfold settled; simpl.
    by destruct (bool_decide _).
Qed.


(** X11.  A file is relocated once.  Take a regular file at
    [output_file_path], a path other than the derived crash-data path, the
    derived path not naming a directory.  After a [crash_data_manager] that
    returned, the same call again raises [FileNotFoundError] for the source
    after one more [shutil.move]; the file system stays as the first call
    left it, the relocated file included.  (Without the two conditions the
    second call can return again, or raise the [shutil.Error] of a name
    taken inside a directory.) *)
Theorem second_relocation_fails name src w c p w1 :
  fs w !! src = Some (File c) →
  src ≠ crash_data_path w name →
  fs w !! crash_data_path w name ≠ Some Dir →
  crash_data_manager name src w = (inr p, w1) →
  ∃ w2, crash_data_manager name src w1 = (inl (FileNotFoundError src), w2)
        ∧ fs w2 = fs w1
        ∧ fs w2 !! p = Some (File c)
        ∧ calls w2 = calls w1 ++ [CallMove src p].
Proof.
  intros Hsrc Hne Hnd Hcall.
  pose proof (data_manager_fs _ _ _ c _ _ src Hsrc Hne Hnd Hcall) as Hgone.
  rewrite decide_False, decide_True in Hgone by done.
  pose proof (data_manager_fs _ _ _ c _ _ (crash_data_path w name)
                Hsrc Hne Hnd Hcall) as Hthere.
  rewrite decide_True in Hthere by done.
  pose proof (data_manager_fs _ _ _ c _ _ (crash_data_folder w)
                Hsrc Hne Hnd Hcall) as Hdir.
  pose proof (data_manager_room _ _ _ _ _ _ Hsrc Hne Hcall) as Hroom.
  destruct (data_manager_returned _ _ _ _ _ Hcall) as [-> Hf].
  rewrite decide_False, decide_False, decide_True in Hdir;
    [|done|by intros <-; destruct (Hf c)|by apply not_eq_sym, data_path_not_folder].
  assert (Hcwd : cwd w1 = cwd w).
  { rewrite (data_manager_result name src w c Hf Hsrc Hne Hnd Hroom) in Hcall.
    injection Hcall as <-. unfold settled. by destruct (bool_decide _). }
  assert (Hdf : crash_data_folder w1 = crash_data_folder w).
  { unfold crash_data_folder. by rewrite Hcwd. }
  assert (Hdp : crash_data_path w1 name = crash_data_path w name).
  { unfold crash_data_path. by rewrite Hdf. }
  rewrite crash_data_manager_eq, Hdf, Hdir, Hdp.
  unfold data_use, shutil_move, bind, traced, os_path_isdir, os_path_exists.
  simpl. rewrite Hthere. rewrite bool_decide_eq_false_2 by done. simpl.
  rewrite Hgone. eexists. split; [done|]. simpl. by rewrite Hthere.
Qed.

(** X12.  An existing "Crash Logs" folder is used as it is.  When the
    folder path names a directory, the log path does not, and there is room
    for the log file (it is there already, or the platform takes its path
    and the directory it is to lie in is the folder or another directory
    that is there),
    [crash_log_manager] returns without calling [os.mkdir], and every path
    other than the log file, the folder included, names what it named
    before. *)
Theorem existing_log_folder_kept name flag w :
  fs w !! crash_log_folder w = Some Dir →
  fs w !! crash_log_path w name ≠ Some Dir →
  has_room (crash_log_folder w) (crash_log_path w name) w →
  ∃ w', crash_log_manager name flag w = (inr (crash_log_path w name), w')
        ∧ calls w' = calls w ++ [CallBasicConfig (crash_log_path w name);
                                 CallLogError (crash_message flag w)]
        ∧ ∀ q, q ≠ crash_log_path w name → fs w' !! q = fs w !! q.
Proof.
  intros Hdir Hnd Hroom.
  rewrite log_manager_result; [|intros c; congruence|done..].
  eexists. split; [done|]. unfold settled.
  rewrite bool_decide_eq_true_2 by done. simpl. split; [done|].
  intros q Hq. by rewrite lookup_insert_ne.
Qed.

(** X13.  An existing "Crash Data" folder is used as it is.  When the
    folder path names a directory, [crash_data_manager], handed a regular
    file to move onto another path that is not a directory and that there
    is room for (a file is there already, or the platform takes the path
    and the directory it lies in is the folder or another directory that
    is there), returns without
    calling [os.mkdir], and every path other than the source and the
    destination names what it named before. *)
Theorem existing_data_folder_kept name src c w :
  fs w !! crash_data_folder w = Some Dir →
  fs w !! src = Some (File c) →
  src ≠ crash_data_path w name →
  fs w !! crash_data_path w name ≠ Some Dir →
  has_room (crash_data_folder w) (crash_data_path w name) w →
  ∃ w', crash_data_manager name src w = (inr (crash_data_path w name), w')
        ∧ calls w' = calls w ++ [CallMove src (crash_data_path w name)]
        ∧ ∀ q, q ≠ src → q ≠ crash_data_path w name → fs w' !! q = fs w !! q.
Proof.
  intros Hdir Hsrc Hne Hnd Hroom.
  rewrite (data_manager_result name src w c); [|intros c0; congruence|done..].
  eexists. split; [done|]. unfold settled.
  rewrite bool_decide_eq_true_2 by done. simpl. split; [done|].
  intros q Hq1 Hq2. rewrite lookup_insert_ne by done.
  by rewrite lookup_delete_ne.
Qed.

(** X14.  [crash_log_manager] only ever adds.  Whatever the call does,
    return or raise, every directory is still a directory afterwards and
    every file still a file whose content begins with what it held: nothing
    is removed, replaced or cut. *)
Theorem log_manager_append_only name flag w r w' q :
  crash_log_manager name flag w = (r, w') →
  match fs w !! q with
  | Some (File c) => ∃ more, fs w' !! q = Some (File (c +:+ more))
  | Some Dir => fs w' !! q = Some Dir
  | None => True
  end.
Proof.
  intros Hcall.
  assert (Hsame : ∀ w0, (∀ k, fs w !! k ≠ None → fs w0 !! k = fs w !! k) →
    fs w' = fs w0 →
    match fs w !! q with
    | Some (File c) => ∃ more, fs w' !! q = Some (File (c +:+ more))
    | Some Dir => fs w' !! q = Some Dir
    | None => True
    end).
  { intros w0 Hkeep ->. destruct (fs w !! q) as [[c|]|] eqn:Hq; [| |done].
    - exists "". rewrite str_app_nil_r, Hkeep, Hq; [done|congruence].
    - rewrite Hkeep, Hq; [done|congruence]. }
  assert (Hput : ∀ w0, fs w0 !! crash_log_path w name ≠ Some Dir →
    (∀ k, fs w !! k ≠ None → fs w0 !! k = fs w !! k) →
    fs w' = <[crash_log_path w name :=
               File (content_at w0 (crash_log_path w name)
                     +:+ format_record "ERROR" "root" (crash_message flag w0))]>
              (fs w0) →
    match fs w !! q with
    | Some (File c) => ∃ more, fs w' !! q = Some (File (c +:+ more))
    | Some Dir => fs w' !! q = Some Dir
    | None => True
    end).
  { intros w0 Hnd Hkeep ->.
    destruct (fs w !! q) as [[c|]|] eqn:Hq; [| |done].
    - destruct (decide (q = crash_log_path w name)) as [->|Hne].
      + rewrite lookup_insert_eq. unfold content_at.
        rewrite Hkeep, Hq by congruence. by eexists.
      + rewrite lookup_insert_ne by done. rewrite Hkeep, Hq by congruence.
        exists "". by rewrite str_app_nil_r.
    - destruct (decide (q = crash_log_path w name)) as [->|Hne].
      + destruct Hnd. rewrite Hkeep by congruence. done.
      + rewrite lookup_insert_ne by done. rewrite Hkeep by congruence. done. }
  assert (Hfolder : (∃ c0, fs w !! crash_log_folder w = Some (File c0))
                    ∨ ∀ c0, fs w !! crash_log_folder w ≠ Some (File c0)).
  { destruct (fs w !! crash_log_folder w) as [[c0|]|]; [left; by eexists|..];
      by right. }
  destruct Hfolder as [[c0 Hfile]|Hnf].
  { rewrite crash_log_manager_eq, Hfile in Hcall.
    apply (Hsame w); [done|]. by injection Hcall as _ <-. }
  rewrite log_manager_settled in Hcall by done.
  set (w0 := settled (crash_log_folder w) w) in *.
  assert (Hkeep : ∀ k, fs w !! k ≠ None → fs w0 !! k = fs w !! k).
  { intros k Hk. unfold w0. rewrite settled_lookup by done.
    case_decide as Hkd; [|done]. subst k.
    destruct (fs w !! crash_log_folder w) as [[c0|]|] eqn:Hdir;
      [by destruct (Hnf c0)|done|done]. }
  destruct (log_use_cases (crash_log_path w name) flag w0)
    as [[_ He]|[(_ & _ & He)|(Hnd & Hroom & _)]].
  - rewrite He in Hcall. apply (Hsame w0 Hkeep). by injection Hcall as _ <-.
  - rewrite He in Hcall. apply (Hsame w0 Hkeep). by injection Hcall as _ <-.
  - rewrite (log_use_ok _ _ _ Hnd Hroom) in Hcall. apply (Hput w0 Hnd Hkeep).
    by injection Hcall as _ <-.
Qed.

Lemma shutil_move_keeps src dst w r w' :
  shutil_move src dst w = (r, w') →
  cwd w' = cwd w ∧ exc_info w' = exc_info w
  ∧ root_handlers w' = root_handlers w.
Proof.
  unfold shutil_move, bind, traced, os_path_isdir, os_path_exists, raise, ret.
  simpl.
  repeat match goal with
  | |- context [if ?b then _ else _] => destruct b; simpl
  | |- context [match fs ?x !! ?k with _ => _ end] =>
      destruct (fs x !! k) as [[?|]|]; simpl
  | |- context [match move_tree ?a ?b ?c with _ => _ end] =>
      destruct (move_tree a b c); simpl
  end; intros; by simplify_eq.
Qed.

Lemma shutil_move_frame src dst w r w' q :
  shutil_move src dst w = (r, w') →
  fs w !! src ≠ Some Dir →
  q ≠ src → q ≠ dst → q ≠ os_path_join dst (os_path_basename src) →
  fs w' !! q = fs w !! q.
Proof.
  unfold shutil_move, bind, traced, os_path_isdir, os_path_exists, raise, ret.
  simpl. intros Hcall Hnd Hq1 Hq2 Hq3.
  destruct (bool_decide (fs w !! dst = Some Dir)); simpl in Hcall.
  - destruct (bool_decide (src = dst)); simpl in Hcall; [by simplify_eq|].
    destruct (bool_decide (is_Some _)); simpl in Hcall; [by simplify_eq|].
    destruct (fs w !! src) as [[c|]|]; [|done|by simplify_eq].
    destruct (decide _); [by simplify_eq|].
    match type of Hcall with
    | context [if ?b then _ else _] => destruct b
    end; simplify_eq; simpl; [|done].
    rewrite lookup_insert_ne by done. by rewrite lookup_delete_ne.
  - destruct (fs w !! src) as [[c|]|]; [|done|by simplify_eq].
    destruct (decide _); [by simplify_eq|].
    match type of Hcall with
    | context [if ?b then _ else _] => destruct b
    end; simplify_eq; simpl; [|done].
    rewrite lookup_insert_ne by done. by rewrite lookup_delete_ne.
Qed.

(** X15.  [crash_data_manager] keeps to its own paths.  Whatever the call
    does, return or raise, for a source that is not a directory and not the
    crash-data folder: the logging target, the working directory and the
    exception in flight are as before, and so is every path other than the
    source, the derived path, the folder, and the source's name inside the
    derived path (used when that path is a directory). *)
Theorem data_manager_touches_nothing_else name src w r w' :
  crash_data_manager name src w = (r, w') →
  fs w !! src ≠ Some Dir →
  src ≠ crash_data_folder w →
  root_handlers w' = root_handlers w
  ∧ cwd w' = cwd w ∧ exc_info w' = exc_info w
  ∧ ∀ q, q ≠ src → q ≠ crash_data_path w name → q ≠ crash_data_folder w →
         q ≠ os_path_join (crash_data_path w name) (os_path_basename src) →
         fs w' !! q = fs w !! q.
Proof.
  intros Hcall Hnd Hsf. rewrite crash_data_manager_eq in Hcall.
  unfold data_use, bind, ret in Hcall.
  destruct (fs w !! crash_data_folder w) as [[c0|]|] eqn:Hdir.
  - by simplify_eq.
  - destruct (shutil_move src (crash_data_path w name) w) as [[e|p] w0] eqn:Hm;
      simplify_eq;
      destruct (shutil_move_keeps _ _ _ _ _ Hm) as (? & ? & ?);
      (repeat split; [done..|]); intros q ? ? ? ?;
      by apply (shutil_move_frame _ _ _ _ _ q Hm).
  - assert (Hnd' : fs (made (crash_data_folder w) w) !! src ≠ Some Dir).
    { simpl. by rewrite lookup_insert_ne. }
    destruct (shutil_move src (crash_data_path w name)
                (made (crash_data_folder w) w)) as [[e|p] w0] eqn:Hm;
      simplify_eq;
      destruct (shutil_move_keeps _ _ _ _ _ Hm) as (? & ? & ?);
      (repeat split; [done..|]); intros q ? ? ? ?;
      rewrite (shutil_move_frame _ _ _ _ _ q Hm) by done; simpl;
      by rewrite lookup_insert_ne.
Qed.

(** X16.  Names that begin with a period.  The base of a name is empty
    exactly when the name is empty or begins with ".".  Every such name is
    given the same two paths, [_CRASHLOG.log] in the log folder and
    [_CRASHDUMP.txt] in the data folder. *)
Theorem dot_names_share_one_log name flag src w :
  (before_first "."%char name = ""
   ↔ name = "" ∨ ∃ rest, name = String "."%char rest)
  ∧ (before_first "."%char name = "" →
     match crash_log_manager name flag w with
     | (inr p, _) => p = crash_log_folder w +:+ "\" +:+ "_CRASHLOG.log"
     | _ => True
     end
     ∧ match crash_data_manager name src w with
       | (inr p, _) => p = crash_data_folder w +:+ "\" +:+ "_CRASHDUMP.txt"
       | _ => True
       end).
Proof.
  split.
  - destruct name as [|a name]; simpl; [by split; [left|]|].
    destruct (decide (a = "."%char)) as [->|Hne].
    + split; [|done]. intros _. right. by eexists.
    + split; [done|]. intros [?|[rest [= ? _]]]; done.
  - intros Hbase.
    pose proof (returned_paths name flag src w) as [Hl Hd].
    unfold crash_log_path, crash_data_path in *. rewrite Hbase in *.
    split.
    + by destruct (crash_log_manager name flag w) as [[e|p] w'].
    + by destruct (crash_data_manager name src w) as [[e|p] w'].
Qed.

End more_managers.

(** *** The properties on example worlds *)

Lemma managers_commute_witness :
  let w := world_of {[ "C:\work\run.txt" := File "data" ]}
                    (Some "ZeroDivisionError: division by zero") in
  let pl := "C:\app\Crash Logs\run_CRASHLOG.log" in
  let pd := "C:\app\Crash Data\run_CRASHDUMP.txt" in
  let wl := snd (crash_log_manager (H:=backslash_paths) "run.txt" false w) in
  let wld := snd (crash_data_manager (H:=backslash_paths)
                    "run.txt" "C:\work\run.txt" wl) in
  let wd := snd (crash_data_manager (H:=backslash_paths)
                   "run.txt" "C:\work\run.txt" w) in
  let wdl := snd (crash_log_manager (H:=backslash_paths) "run.txt" false wd) in
  pl = pl ∧ pd = pd
  ∧ fs wdl = fs wld
  ∧ root_handlers wdl = root_handlers wld.
Proof.
  intros w pl pd wl wld wd wdl.
  apply (managers_commute (P:=backslash_paths)
           "run.txt" false "run.txt" "C:\work\run.txt" "data"
           w pl wl wld pd wd wdl pl pd).
  - vm_compute; reflexivity.
  - vm_compute; discriminate.
  - vm_compute; discriminate.
  - vm_compute; discriminate.
  - vm_compute; reflexivity.
  - vm_compute; reflexivity.
  - vm_compute; reflexivity.
  - vm_compute; reflexivity.
Defined.

Lemma second_relocation_fails_witness :
  let w := world_of {[ "C:\work\sample.txt" := File "abc" ]} None in
  let p := "C:\app\Crash Data\sample_CRASHDUMP.txt" in
  let w1 := snd (crash_data_manager (H:=backslash_paths)
                   "sample.txt" "C:\work\sample.txt" w) in
  ∃ w2, crash_data_manager (H:=backslash_paths)
          "sample.txt" "C:\work\sample.txt" w1
        = (inl (FileNotFoundError "C:\work\sample.txt"), w2)
        ∧ fs w2 = fs w1
        ∧ fs w2 !! p = Some (File "abc")
        ∧ calls w2 = calls w1 ++ [CallMove "C:\work\sample.txt" p].
Proof.
  intros w p w1.
  apply (second_relocation_fails (P:=backslash_paths)
           "sample.txt" "C:\work\sample.txt" w "abc" p w1).
  - vm_compute; reflexivity.
  - vm_compute; discriminate.
  - vm_compute; discriminate.
  - vm_compute; reflexivity.
Defined.

Lemma existing_log_folder_kept_witness :
  let w := world_of {[ "C:\app\Crash Logs" := Dir;
                       "C:\app\Crash Logs\old_CRASHLOG.log" := File "kept" ]}
                    None in
  let p := crash_log_path (H:=backslash_paths) w "data.bin" in
  ∃ w', crash_log_manager (H:=backslash_paths) "data.bin" true w = (inr p, w')
        ∧ calls w' = calls w ++ [CallBasicConfig p;
                                 CallLogError (crash_message true w)]
        ∧ ∀ q, q ≠ p → fs w' !! q = fs w !! q.
Proof.
  intros w p.
  apply (existing_log_folder_kept (P:=backslash_paths) "data.bin" true w).
  - vm_compute; reflexivity.
  - vm_compute; discriminate.
  - right. split; [vm_compute; reflexivity|left; vm_compute; reflexivity].
Defined.

Lemma existing_data_folder_kept_witness :
  let w := world_of {[ "C:\app\Crash Data" := Dir;
                       "C:\work\sample.txt" := File "abc" ]} None in
  let p := crash_data_path (H:=backslash_paths) w "sample.txt" in
  ∃ w', crash_data_manager (H:=backslash_paths)
          "sample.txt" "C:\work\sample.txt" w = (inr p, w')
        ∧ calls w' = calls w ++ [CallMove "C:\work\sample.txt" p]
        ∧ ∀ q, q ≠ "C:\work\sample.txt" → q ≠ p → fs w' !! q = fs w !! q.
Proof.
  intros w p.
  apply (existing_data_folder_kept (P:=backslash_paths)
           "sample.txt" "C:\work\sample.txt" "abc" w).
  - vm_compute; reflexivity.
  - vm_compute; reflexivity.
  - vm_compute; discriminate.
  - vm_compute; discriminate.
  - right. split; [vm_compute; reflexivity|left; vm_compute; reflexivity].
Defined.

Lemma log_manager_append_only_witness :
  let w := world_of {[ "C:\app\Crash Logs" := Dir;
                       "C:\app\Crash Logs\run_CRASHLOG.log" := File "old" ]}
                    None in
  let q := "C:\app\Crash Logs\run_CRASHLOG.log" in
  let w' := snd (crash_log_manager (H:=backslash_paths) "run.txt" true w) in
  match fs w !! q with
  | Some (File c) => ∃ more, fs w' !! q = Some (File (c +:+ more))
  | Some Dir => fs w' !! q = Some Dir
  | None => True
  end.
Proof.
  intros w q w'.
  apply (log_manager_append_only (P:=backslash_paths) "run.txt" true w
           (fst (crash_log_manager (H:=backslash_paths) "run.txt" true w)) w' q).
  vm_compute; reflexivity.
Defined.

Lemma data_manager_touches_nothing_else_witness :
  let w := world_of {[ "C:\work\sample.txt" := File "abc";
                       "C:\work\other.txt" := File "xyz" ]} None in
  let src := "C:\work\sample.txt" in
  let w' := snd (crash_data_manager (H:=backslash_paths) "sample.txt" src w) in
  root_handlers w' = root_handlers w
  ∧ cwd w' = cwd w ∧ exc_info w' = exc_info w
  ∧ ∀ q, q ≠ src →
         q ≠ crash_data_path (H:=backslash_paths) w "sample.txt" →
         q ≠ crash_data_folder (H:=backslash_paths) w →
         q ≠ os_path_join (Platform:=backslash_paths)
               (crash_data_path (H:=backslash_paths) w "sample.txt")
               (os_path_basename (Platform:=backslash_paths) src) →
         fs w' !! q = fs w !! q.
Proof.
  intros w src w'.
  apply (data_manager_touches_nothing_else (P:=backslash_paths)
           "sample.txt" src w
           (fst (crash_data_manager (H:=backslash_paths) "sample.txt" src w))
           w').
  - vm_compute; reflexivity.
  - vm_compute; discriminate.
  - vm_compute; discriminate.
Defined.

End CrashOutputManagerMore.
